(** * rust-ppapi: the C helper shims and the NaCl entropy routine

    Shallow embedding of

    - [src/src/helper.cpp] and [src/src/libhelper/helper.cpp], the two
      translation units exporting the [extern "C"] helpers that wrap what the
      Pepper headers inline (variant constructors, completion callbacks);
    - [deps/libressl-2.0.0/crypto/compat/getentropy_nacl.c], the [getentropy]
      replacement reading the virtual [/dev/urandom].

    Conventions.  A fixed-width C integer is a [Z]; [wrap w] keeps the low
    [w] bits and [sign w] reads a [w]-bit pattern as a two's-complement
    number.  A [double] is its IEEE-754 binary64 encoding, a 64-bit pattern:
    the helpers only move doubles, they never compute with them.  The union
    [PP_VarValue] is its eight bytes of storage seen as one little-endian
    64-bit cell (every NaCl and PNaCl target is little-endian); writing an arm
    replaces the bytes that arm covers, reading an arm reinterprets them. *)

From Stdlib Require Import ZArith NArith List Bool Lia.
From Stdlib Require Import Strings.Byte.
Import ListNotations.
Local Open Scope Z_scope.

(** ** Machine integers *)

Definition wrap (w x : Z) : Z := Z.land x (Z.ones w).

Definition sign (w u : Z) : Z :=
  if Z.testbit u (w - 1) then u - Z.shiftl 1 w else u.

Definition int32_range (n : Z) : Prop := - 2 ^ 31 <= n < 2 ^ 31.
Definition int64_range (n : Z) : Prop := - 2 ^ 63 <= n < 2 ^ 63.
Definition binary64 (d : Z) : Prop := 0 <= d < 2 ^ 64.

(** ** The Pepper C API used by the helpers *)

Module PPAPI.

(** Modelled from the spec: the enumeration [PP_VarType] of
    [ppapi/c/pp_var.h], which is not among the sources.  The spec's data
    model gives the closed set of Kinds, in this order. *)
Inductive PP_VarType : Set :=
| PP_VARTYPE_UNDEFINED
| PP_VARTYPE_NULL
| PP_VARTYPE_BOOL
| PP_VARTYPE_INT32
| PP_VARTYPE_DOUBLE
| PP_VARTYPE_STRING
| PP_VARTYPE_OBJECT
| PP_VARTYPE_ARRAY
| PP_VARTYPE_DICTIONARY
| PP_VARTYPE_ARRAY_BUFFER.

(** Modelled from the spec: the 32-bit tag that crosses the boundary for
    each Kind; a C enumeration numbers its members from zero in
    declaration order. *)
Definition PP_VarType_tag (t : PP_VarType) : Z :=
  match t with
  | PP_VARTYPE_UNDEFINED => 0
  | PP_VARTYPE_NULL => 1
  | PP_VARTYPE_BOOL => 2
  | PP_VARTYPE_INT32 => 3
  | PP_VARTYPE_DOUBLE => 4
  | PP_VARTYPE_STRING => 5
  | PP_VARTYPE_OBJECT => 6
  | PP_VARTYPE_ARRAY => 7
  | PP_VARTYPE_DICTIONARY => 8
  | PP_VARTYPE_ARRAY_BUFFER => 9
  end.

(** Modelled from the spec: [PP_Bool] of [ppapi/c/pp_bool.h], the
    int-sized boolean of the ABI. *)
Inductive PP_Bool : Set := PP_FALSE | PP_TRUE.

Definition PP_Bool_to_int (b : PP_Bool) : Z :=
  match b with PP_FALSE => 0 | PP_TRUE => 1 end.

(** [static_cast<PP_Bool>(value)] on a C++ [bool]. *)
Definition PP_Bool_of_bool (value : bool) : PP_Bool :=
  if value then PP_TRUE else PP_FALSE.

(** Conversion of an int-sized enumeration value to a C++ [bool]. *)
Definition bool_of_int (x : Z) : bool := negb (x =? 0).

(** Modelled from the spec: the union [PP_VarValue] of [pp_var.h],
    "union { bool; int32; float64; u64 opaque-identity }", as its 64 bits
    of storage. *)
Definition PP_VarValue : Set := Z.

Definition high_half (vv : PP_VarValue) : Z :=
  Z.shiftl (Z.shiftr (wrap 64 vv) 32) 32.

(** [vv.as_id = id] and [vv.as_id]: the arm covers all eight bytes. *)
Definition set_as_id (vv : PP_VarValue) (id : Z) : PP_VarValue := wrap 64 id.
Definition as_id (vv : PP_VarValue) : Z := sign 64 (wrap 64 vv).

(** [vv.as_double = d] and [vv.as_double]. *)
Definition set_as_double (vv : PP_VarValue) (d : Z) : PP_VarValue := wrap 64 d.
Definition as_double (vv : PP_VarValue) : Z := wrap 64 vv.

(** [vv.as_int = n] and [vv.as_int]: the arm covers the low four bytes. *)
Definition set_as_int (vv : PP_VarValue) (n : Z) : PP_VarValue :=
  Z.lor (high_half vv) (wrap 32 n).
Definition as_int (vv : PP_VarValue) : Z := sign 32 (wrap 32 vv).

(** [vv.as_bool = b] and [vv.as_bool]; the read yields the raw value of
    the enumeration, which need not be one of its two members and is zero
    exactly when its four bytes are. *)
Definition set_as_bool (vv : PP_VarValue) (b : PP_Bool) : PP_VarValue :=
  Z.lor (high_half vv) (wrap 32 (PP_Bool_to_int b)).
Definition as_bool (vv : PP_VarValue) : Z := sign 32 (wrap 32 vv).

(** The contents of a [PP_VarValue] local that was declared and not yet
    assigned.  Any value would do: see [set_as_id]. *)
Definition uninitialized : PP_VarValue := 0.

(** Modelled from the spec: [struct PP_Var] of [pp_var.h],
    "Variant { Kind: 32-bit tag; Reserved: 32-bit, always 0; Payload }". *)
Record PP_Var : Set := mkVar
  { type : PP_VarType;
    padding : Z;
    value : PP_VarValue }.

(** Modelled from the spec: [PP_MakeUndefined] of [pp_var.h], which is not
    among the sources: "singleton tagless Variants with no payload
    semantics"; the reserved field and the payload storage are zero. *)
Definition PP_MakeUndefined : PP_Var := mkVar PP_VARTYPE_UNDEFINED 0 0.

(** Modelled from the spec: [PP_MakeNull] of [pp_var.h], as
    [PP_MakeUndefined]. *)
Definition PP_MakeNull : PP_Var := mkVar PP_VARTYPE_NULL 0 0.

(** Modelled from the spec: [PP_MakeBool] of [pp_var.h]:
    "Kind=Bool, payload=v", reserved field zero. *)
Definition PP_MakeBool (b : PP_Bool) : PP_Var :=
  mkVar PP_VARTYPE_BOOL 0 (set_as_bool 0 b).

(** Modelled from the spec: [PP_MakeInt32] of [pp_var.h]:
    "same pattern, Kind=Int32, 32-bit signed payload". *)
Definition PP_MakeInt32 (n : Z) : PP_Var :=
  mkVar PP_VARTYPE_INT32 0 (set_as_int 0 n).

(** Modelled from the spec: [PP_MakeDouble] of [pp_var.h]:
    "same pattern, Kind=Double, 64-bit floating payload". *)
Definition PP_MakeDouble (d : Z) : PP_Var :=
  mkVar PP_VARTYPE_DOUBLE 0 (set_as_double 0 d).

(** *** Completion callbacks

    A function pointer is the address of a function of the plugin, [NULL]
    being address zero.  What the function at an address does when it is
    called with a context and a result code is the plugin's business: it is
    a transformation of the plugin's own state, of which nothing is known
    here. *)
Definition NULL : Z := 0.

Class Plugin : Type :=
  { Heap : Type;
    body : Z -> Z -> Z -> Heap -> Heap }.

(** One call through a function pointer: callee, context, result code. *)
Record Invocation : Set := mkInvocation
  { callee : Z;
    arg_user_data : Z;
    arg_result : Z }.

(** Everything a helper could affect: the calls made so far, oldest
    first, and the plugin's state. *)
Record World `{Plugin} : Type := mkWorld
  { invoked : list Invocation;
    heap : Heap }.
Arguments mkWorld {_} _ _.
Arguments invoked {_} _.
Arguments heap {_} _.

(** Modelled from the spec: [struct PP_CompletionCallback] of
    [ppapi/c/pp_completion_callback.h], which is not among the sources:
    "a value pairing a function reference with an opaque context"; the
    header's [flags] word is kept beside them. *)
Record PP_CompletionCallback : Set := mkCallback
  { func : Z;
    user_data : Z;
    flags : Z }.

Definition PP_COMPLETIONCALLBACK_FLAG_NONE : Z := 0.

(** Modelled from the spec: [PP_MakeCompletionCallback]: "binds a
    function reference and opaque context into a crossable value; no
    invocation occurs at construction". *)
Definition PP_MakeCompletionCallback (func user_data : Z)
  : PP_CompletionCallback :=
  mkCallback func user_data PP_COMPLETIONCALLBACK_FLAG_NONE.

(** Modelled from the spec: [PP_BlockUntilComplete]: "produces a sentinel
    value"; the sentinel is the callback without a function. *)
Definition PP_BlockUntilComplete : PP_CompletionCallback :=
  PP_MakeCompletionCallback NULL NULL.

(** A call through a function pointer.  Calling through [NULL] is a
    fault: there is no result. *)
Definition call_indirect `{Plugin} (f user_data result : Z) (w : World)
  : option (unit * World) :=
  if f =? NULL then None
  else Some (tt, mkWorld (invoked w ++ [mkInvocation f user_data result])
                         (body f user_data result (heap w))).

(** Modelled from the spec: [PP_RunCompletionCallback]: "triggers
    execution of fn(context, result_code)"; [cc] is a pointer in C, read
    twice and not written. *)
Definition PP_RunCompletionCallback `{Plugin} (cc : PP_CompletionCallback)
    (res : Z) : World -> option (unit * World) :=
  call_indirect (func cc) (user_data cc) res.

End PPAPI.

(** ** [src/src/helper.cpp] *)

Module Helper.
Import PPAPI.

(** The three standard streams of [<stdio.h>]. *)
Inductive FILE_ptr : Set := stdin | stdout | stderr.

Definition make_completion_callback (func user_data : Z)
  : PP_CompletionCallback :=
  PP_MakeCompletionCallback func user_data.

Definition run_completion_callback `{Plugin} (func : PP_CompletionCallback)
    (code : Z) : World -> option (unit * World) :=
  PP_RunCompletionCallback func code.

Definition make_undefined_var : PP_Var := PP_MakeUndefined.
Definition make_null_var : PP_Var := PP_MakeNull.

Definition bool_to_var (value : bool) : PP_Var :=
  PP_MakeBool (PP_Bool_of_bool value).
Definition bool_from_var (v : PP_Var) : bool :=
  bool_of_int (as_bool (PPAPI.value v)).

Definition i32_to_var (value : Z) : PP_Var := PP_MakeInt32 value.
Definition i32_from_var (v : PP_Var) : Z := as_int (PPAPI.value v).

Definition f64_to_var (value : Z) : PP_Var := PP_MakeDouble value.
Definition f64_from_var (v : PP_Var) : Z := as_double (PPAPI.value v).

Definition string_id_to_var (id : Z) : PP_Var :=
  let vv := uninitialized in
  let vv := set_as_id vv id in
  let v := mkVar PP_VARTYPE_STRING 0 vv in
  v.

Definition object_id_to_var (id : Z) : PP_Var :=
  let vv := uninitialized in
  let vv := set_as_id vv id in
  let v := mkVar PP_VARTYPE_OBJECT 0 vv in
  v.

Definition array_id_to_var (id : Z) : PP_Var :=
  let vv := uninitialized in
  let vv := set_as_id vv id in
  let v := mkVar PP_VARTYPE_ARRAY 0 vv in
  v.

Definition dictionary_id_to_var (id : Z) : PP_Var :=
  let vv := uninitialized in
  let vv := set_as_id vv id in
  let v := mkVar PP_VARTYPE_DICTIONARY 0 vv in
  v.

Definition array_buffer_id_to_var (id : Z) : PP_Var :=
  let vv := uninitialized in
  let vv := set_as_id vv id in
  let v := mkVar PP_VARTYPE_ARRAY_BUFFER 0 vv in
  v.

Definition id_from_var (v : PP_Var) : Z := as_id (PPAPI.value v).

Definition stdout_file : FILE_ptr := stdin.
Definition stderr_file : FILE_ptr := stderr.

(** *** The encoders, by name

    [reference_encoders] pairs each reference Kind with the function that
    encodes an identity of that Kind; [payload_encoded v] says that [v] is
    what a scalar or a reference encoder returned, and [encoded v] that
    any encoder did. *)
Definition reference_encoders : list (PP_VarType * (Z -> PP_Var)) :=
  [ (PP_VARTYPE_STRING, string_id_to_var);
    (PP_VARTYPE_OBJECT, object_id_to_var);
    (PP_VARTYPE_ARRAY, array_id_to_var);
    (PP_VARTYPE_DICTIONARY, dictionary_id_to_var);
    (PP_VARTYPE_ARRAY_BUFFER, array_buffer_id_to_var) ].

Inductive payload_encoded : PP_Var -> Prop :=
| by_bool_to_var value : payload_encoded (bool_to_var value)
| by_i32_to_var value : payload_encoded (i32_to_var value)
| by_f64_to_var value : payload_encoded (f64_to_var value)
| by_id_to_var k enc id :
    In (k, enc) reference_encoders -> payload_encoded (enc id).

Inductive encoded : PP_Var -> Prop :=
| by_make_undefined_var : encoded make_undefined_var
| by_make_null_var : encoded make_null_var
| by_payload v : payload_encoded v -> encoded v.

End Helper.

(** ** [src/src/libhelper/helper.cpp] *)

Module LibHelper.
Import PPAPI.

Definition make_completion_callback (func user_data : Z)
  : PP_CompletionCallback :=
  PP_MakeCompletionCallback func user_data.

Definition run_completion_callback `{Plugin} (func : PP_CompletionCallback)
    (code : Z) : World -> option (unit * World) :=
  PP_RunCompletionCallback func code.

Definition block_until_complete : PP_CompletionCallback :=
  PP_BlockUntilComplete.

Definition make_undefined_var : PP_Var := PP_MakeUndefined.
Definition make_null_var : PP_Var := PP_MakeNull.

Definition bool_to_var (value : bool) : PP_Var :=
  PP_MakeBool (PP_Bool_of_bool value).
Definition bool_from_var (v : PP_Var) : bool :=
  bool_of_int (as_bool (PPAPI.value v)).

Definition i32_to_var (value : Z) : PP_Var := PP_MakeInt32 value.
Definition i32_from_var (v : PP_Var) : Z := as_int (PPAPI.value v).

Definition f64_to_var (value : Z) : PP_Var := PP_MakeDouble value.
Definition f64_from_var (v : PP_Var) : Z := as_double (PPAPI.value v).

Definition string_id_to_var (id : Z) : PP_Var :=
  let vv := uninitialized in
  let vv := set_as_id vv id in
  let v := mkVar PP_VARTYPE_STRING 0 vv in
  v.

Definition object_id_to_var (id : Z) : PP_Var :=
  let vv := uninitialized in
  let vv := set_as_id vv id in
  let v := mkVar PP_VARTYPE_OBJECT 0 vv in
  v.

Definition array_id_to_var (id : Z) : PP_Var :=
  let vv := uninitialized in
  let vv := set_as_id vv id in
  let v := mkVar PP_VARTYPE_ARRAY 0 vv in
  v.

Definition dictionary_id_to_var (id : Z) : PP_Var :=
  let vv := uninitialized in
  let vv := set_as_id vv id in
  let v := mkVar PP_VARTYPE_DICTIONARY 0 vv in
  v.

Definition array_buffer_id_to_var (id : Z) : PP_Var :=
  let vv := uninitialized in
  let vv := set_as_id vv id in
  let v := mkVar PP_VARTYPE_ARRAY_BUFFER 0 vv in
  v.

Definition id_from_var (v : PP_Var) : Z := as_id (PPAPI.value v).

(** *** The encoders, by name

    [reference_encoders] pairs each reference Kind with the function that
    encodes an identity of that Kind; [payload_encoded v] says that [v] is
    what a scalar or a reference encoder returned, and [encoded v] that
    any encoder did. *)
Definition reference_encoders : list (PP_VarType * (Z -> PP_Var)) :=
  [ (PP_VARTYPE_STRING, string_id_to_var);
    (PP_VARTYPE_OBJECT, object_id_to_var);
    (PP_VARTYPE_ARRAY, array_id_to_var);
    (PP_VARTYPE_DICTIONARY, dictionary_id_to_var);
    (PP_VARTYPE_ARRAY_BUFFER, array_buffer_id_to_var) ].

Inductive payload_encoded : PP_Var -> Prop :=
| by_bool_to_var value : payload_encoded (bool_to_var value)
| by_i32_to_var value : payload_encoded (i32_to_var value)
| by_f64_to_var value : payload_encoded (f64_to_var value)
| by_id_to_var k enc id :
    In (k, enc) reference_encoders -> payload_encoded (enc id).

Inductive encoded : PP_Var -> Prop :=
| by_make_undefined_var : encoded make_undefined_var
| by_make_null_var : encoded make_null_var
| by_payload v : payload_encoded v -> encoded v.

(** *** The exported interface

    One constructor per [extern "C"] function of the translation unit,
    carrying its arguments; [extern_C] performs the call in a world and
    yields what the function returns, or nothing when the call faults. *)
Inductive Call : Set :=
| call_make_completion_callback (func user_data : Z)
| call_run_completion_callback (func : PP_CompletionCallback) (code : Z)
| call_block_until_complete
| call_make_undefined_var
| call_make_null_var
| call_bool_to_var (value : bool)
| call_bool_from_var (v : PP_Var)
| call_i32_to_var (value : Z)
| call_i32_from_var (v : PP_Var)
| call_f64_to_var (value : Z)
| call_f64_from_var (v : PP_Var)
| call_string_id_to_var (id : Z)
| call_object_id_to_var (id : Z)
| call_array_id_to_var (id : Z)
| call_dictionary_id_to_var (id : Z)
| call_array_buffer_id_to_var (id : Z)
| call_id_from_var (v : PP_Var).

Inductive Returned : Set :=
| ret_void
| ret_callback (cb : PP_CompletionCallback)
| ret_var (v : PP_Var)
| ret_bool (b : bool)
| ret_int32 (n : Z)
| ret_double (d : Z)
| ret_int64 (n : Z).

Definition pure `{Plugin} (r : Returned) (w : World)
  : option (Returned * World) := Some (r, w).

Definition extern_C `{Plugin} (c : Call) (w : World)
  : option (Returned * World) :=
  match c with
  | call_make_completion_callback f u =>
      pure (ret_callback (make_completion_callback f u)) w
  | call_run_completion_callback cb code =>
      match run_completion_callback cb code w with
      | Some (_, w') => Some (ret_void, w')
      | None => None
      end
  | call_block_until_complete => pure (ret_callback block_until_complete) w
  | call_make_undefined_var => pure (ret_var make_undefined_var) w
  | call_make_null_var => pure (ret_var make_null_var) w
  | call_bool_to_var b => pure (ret_var (bool_to_var b)) w
  | call_bool_from_var v => pure (ret_bool (bool_from_var v)) w
  | call_i32_to_var n => pure (ret_var (i32_to_var n)) w
  | call_i32_from_var v => pure (ret_int32 (i32_from_var v)) w
  | call_f64_to_var d => pure (ret_var (f64_to_var d)) w
  | call_f64_from_var v => pure (ret_double (f64_from_var v)) w
  | call_string_id_to_var id => pure (ret_var (string_id_to_var id)) w
  | call_object_id_to_var id => pure (ret_var (object_id_to_var id)) w
  | call_array_id_to_var id => pure (ret_var (array_id_to_var id)) w
  | call_dictionary_id_to_var id =>
      pure (ret_var (dictionary_id_to_var id)) w
  | call_array_buffer_id_to_var id =>
      pure (ret_var (array_buffer_id_to_var id)) w
  | call_id_from_var v => pure (ret_int64 (id_from_var v)) w
  end.

(** The Variant encode and decode operations and the callback
    constructions: every exported function but the one that runs a
    callback. *)
Definition is_variant_or_construction (c : Call) : bool :=
  match c with
  | call_run_completion_callback _ _ => false
  | _ => true
  end.

End LibHelper.

(** ** [deps/libressl-2.0.0/crypto/compat/getentropy_nacl.c] *)

Module Getentropy.

(** [<errno.h>] and [<sys/stat.h>], with newlib's numbering. *)
Definition EINTR : Z := 4.
Definition EIO : Z := 5.
Definition EAGAIN : Z := 11.

Definition S_IFMT : Z := 61440.   (* 0170000 *)
Definition S_IFCHR : Z := 8192.   (* 0020000 *)
Definition S_ISCHR (m : Z) : bool := Z.land m S_IFMT =? S_IFCHR.

(** *** The system

    [getentropy] talks to the system through [open], [fstat], [read] and
    [close].  What the system answers is not under the routine's control:
    a [System] lists the answers it will give, [open]s and [read]s in the
    order of the calls.  [fstat] and [close] are called at most once. *)
Inductive open_answer : Set :=
| open_fd (fd : Z)
| open_error (e : Z).

Inductive fstat_answer : Set :=
| fstat_mode (st_mode : Z)
| fstat_error (e : Z).

Inductive read_answer : Set :=
| read_bytes (data : list byte)
| read_error (e : Z).

Inductive close_answer : Set :=
| close_ok
| close_error (e : Z).

Record System : Set := mkSystem
  { on_open : list open_answer;
    on_fstat : fstat_answer;
    on_read : list read_answer;
    on_close : close_answer }.

(** What the routine can change: the global [errno] and the caller's
    memory at [buf], which holds [len] bytes at least.  The [size_t]
    counters are natural numbers: [i] stays at or below [len], nothing
    wraps. *)
Record State : Set := mkState
  { errno : Z;
    buf : list byte }.

Definition set_errno (e : Z) (s : State) : State := mkState e (buf s).

(** [memcpy(buf + i, data, length data)] *)
Definition store (b : list byte) (i : nat) (data : list byte) : list byte :=
  firstn i b ++ data ++ skipn (i + length data) b.

Definition sys_open (a : open_answer) (s : State) : Z * State :=
  match a with
  | open_fd fd => (fd, s)
  | open_error e => (-1, set_errno e s)
  end.

(** The result and [st.st_mode]. *)
Definition sys_fstat (a : fstat_answer) (s : State) : Z * Z * State :=
  match a with
  | fstat_mode m => (0, m, s)
  | fstat_error e => (-1, 0, set_errno e s)
  end.

(** [read(fd, buf + i, wanted)]: at most [wanted] bytes are taken. *)
Definition sys_read (a : read_answer) (i wanted : nat) (s : State)
  : Z * State :=
  match a with
  | read_bytes data =>
      let got := firstn wanted data in
      (Z.of_nat (length got), mkState (errno s) (store (buf s) i got))
  | read_error e => (-1, set_errno e s)
  end.

Definition sys_close (a : close_answer) (s : State) : State :=
  match a with
  | close_ok => s
  | close_error e => set_errno e s
  end.

(** *** The routine *)

(** [any_set] is a [char]: eight bits, here as a number below 256. *)
Definition gotdata (buf : list byte) (len : nat) : Z :=
  let any_set :=
    fold_left (fun any_set c => N.lor any_set (Byte.to_N c))
              (firstn len buf) 0%N in
  if (any_set =? 0)%N then -1 else 0.

(** From the label [start] to the end of the test on [fd]: the file
    descriptor, or [-1] for [goto nodevrandom].  No answer left: the
    routine has not come back.  The [fcntl] calls of the [#ifndef
    O_CLOEXEC] branch give the routine nothing it looks at. *)
Fixpoint start (answers : list open_answer) (s : State)
  : option (Z * State) :=
  match answers with
  | [] => None
  | a :: answers' =>
      let '(fd, s') := sys_open a s in
      if fd =? -1 then
        if errno s' =? EINTR then start answers' s'
        else Some (-1, s')
      else Some (fd, s')
  end.

(** The [for] loop over [i]: [true] when it ran to its end, [false] for
    the [goto nodevrandom] inside. *)
Fixpoint read_loop (answers : list read_answer) (len i : nat) (s : State)
  : option (bool * State) :=
  if (i <? len)%nat then
    match answers with
    | [] => None
    | a :: answers' =>
        let wanted := (len - i)%nat in
        let '(ret, s') := sys_read a i wanted s in
        if ret =? -1 then
          if (errno s' =? EAGAIN) || (errno s' =? EINTR)
          then read_loop answers' len i s'
          else Some (false, s')
        else read_loop answers' len (i + Z.to_nat ret)%nat s'
    end
  else Some (true, s).

Definition nodevrandom (s : State) : Z * State := (-1, set_errno EIO s).

Definition getentropy (sys : System) (len : nat) (s : State)
  : option (Z * State) :=
  let save_errno := errno s in
  match start (on_open sys) s with
  | None => None
  | Some (fd, s) =>
      if fd =? -1 then Some (nodevrandom s)
      else
        let '(r, st_mode, s) := sys_fstat (on_fstat sys) s in
        if (r =? -1) || negb (S_ISCHR st_mode) then
          let s := sys_close (on_close sys) s in
          Some (nodevrandom s)
        else
          match read_loop (on_read sys) len 0 s with
          | None => None
          | Some (false, s) =>
              let s := sys_close (on_close sys) s in
              Some (nodevrandom s)
          | Some (true, s) =>
              let s := sys_close (on_close sys) s in
              if gotdata (buf s) len =? 0
              then Some (0, set_errno save_errno s)
              else Some (nodevrandom s)
          end
  end.

(** *** Describing what the system answers

    A [read] answer is [passed_over] when the loop goes on after it: bytes
    were delivered, or the error is one the loop tries again on.
    [total_bytes] counts the bytes a list of answers offers. *)
Definition passed_over (a : read_answer) : bool :=
  match a with
  | read_bytes _ => true
  | read_error e => (e =? EAGAIN) || (e =? EINTR)
  end.

Definition offered (a : read_answer) : list byte :=
  match a with
  | read_bytes data => data
  | read_error _ => []
  end.

Definition total_bytes (answers : list read_answer) : nat :=
  length (flat_map offered answers).

(** [open] is interrupted [k] times, then answers [a]. *)
Definition opens_with (sys : System) (k : nat) (a : open_answer) : Prop :=
  exists rest, on_open sys = repeat (open_error EINTR) k ++ a :: rest.

(** The device node was opened and looks sane. *)
Definition device_ready (sys : System) : Prop :=
  (exists k fd, opens_with sys k (open_fd fd) /\ fd <> -1)
  /\ exists m, on_fstat sys = fstat_mode m /\ S_ISCHR m = true.

End Getentropy.


(** ** A plugin to run the helpers in

    Its state is the list of the result codes its functions received, the
    latest first, each with the context it came with. *)
Definition recording_plugin : PPAPI.Plugin :=
  {| PPAPI.Heap := list (Z * Z);
     PPAPI.body := fun _ user_data result h => (user_data, result) :: h |}.

(** ** [deps/libressl-2.0.0/crypto/o_str.c] and [include/string.h]

    The comparison functions as they are compiled for PNaCl: the branch
    under [__pnacl__].  A C string is the list of its characters before the
    terminating NUL, none of which is NUL; [char_at str i] is [str[i]], the
    terminator at [i = length str].  A [char] in an expression has the value
    [char_to_int] gives it, [char] being signed or not as the target has
    it. *)

Module OStr.

Definition char_at (str : list byte) (i : nat) : byte := nth i str x00.

Definition char_to_int (char_signed : bool) (c : byte) : Z :=
  let u := Z.of_N (Byte.to_N c) in
  if char_signed then sign 8 u else u.

Definition c_string (str : list byte) : Prop := ~ In x00 str.

(** [for (; cond; ++i) { }] from [i]: the index at which the loop is
    left.  [fuel] bounds the number of rounds. *)
Fixpoint for_loop (cond : nat -> bool) (fuel i : nat) : nat :=
  match fuel with
  | O => i
  | S fuel' => if cond i then for_loop cond fuel' (S i) else i
  end.

(** The loop conditions of the two pairs of functions. *)
Definition strncasecmp_cond (str1 str2 : list byte) (n i : nat) : bool :=
  Byte.eqb (char_at str1 i) (char_at str2 i)
  && negb (Byte.eqb (char_at str1 i) x00)
  && negb (Byte.eqb (char_at str2 i) x00)
  && (i <? n)%nat.

Definition strcasecmp_cond (str1 str2 : list byte) (i : nat) : bool :=
  Byte.eqb (char_at str1 i) (char_at str2 i)
  && negb (Byte.eqb (char_at str1 i) x00)
  && negb (Byte.eqb (char_at str2 i) x00).

(** The value of [i] after the loop.  The loop is left at the terminator
    of [str1] at the latest: [length str1] rounds and one test. *)
Definition strncasecmp_stop (str1 str2 : list byte) (n : nat) : nat :=
  for_loop (strncasecmp_cond str1 str2 n) (S (length str1)) 0.

Definition strcasecmp_stop (str1 str2 : list byte) : nat :=
  for_loop (strcasecmp_cond str1 str2) (S (length str1)) 0.

Section Target.
Variable char_signed : bool.

(** [o_str.c] *)
Definition OPENSSL_strncasecmp (str1 str2 : list byte) (n : nat) : Z :=
  let i := strncasecmp_stop str1 str2 n in
  char_to_int char_signed (char_at str1 i)
  - char_to_int char_signed (char_at str2 i).

Definition OPENSSL_strcasecmp (str1 str2 : list byte) : Z :=
  let i := strcasecmp_stop str1 str2 in
  char_to_int char_signed (char_at str1 i)
  - char_to_int char_signed (char_at str2 i).

(** [string.h] *)
Definition strncasecmp (str1 str2 : list byte) (n : nat) : Z :=
  let i := strncasecmp_stop str1 str2 n in
  char_to_int char_signed (char_at str1 i)
  - char_to_int char_signed (char_at str2 i).

Definition strcasecmp (str1 str2 : list byte) : Z :=
  let i := strcasecmp_stop str1 str2 in
  char_to_int char_signed (char_at str1 i)
  - char_to_int char_signed (char_at str2 i).

End Target.

End OStr.

(** ** Systems to run [getentropy] against *)

Module Devices.
Import Getentropy.

(** A healthy device on a busy system: [open] and [read] are interrupted,
    the bytes come in two pieces, [close] fails. *)
Definition busy : System :=
  mkSystem [open_error EINTR; open_fd 3]
           (fstat_mode S_IFCHR)
           [read_error EINTR; read_bytes [x9c; x02];
            read_error EAGAIN; read_bytes [x00; x00; x51]]
           (close_error 9).

(** A healthy device whose first [read] is interrupted. *)
Definition interrupted_once : System :=
  mkSystem [open_fd 3]
           (fstat_mode S_IFCHR)
           [read_error EINTR; read_bytes [x9c; x02; x00; x51]]
           close_ok.

(** No [/dev/urandom]: [open] fails with [ENOENT]. *)
Definition missing : System :=
  mkSystem [open_error 2] (fstat_error 9) [] close_ok.

(** A regular file where the device should be. *)
Definition regular_file : System :=
  mkSystem [open_fd 3] (fstat_mode 33188) [read_bytes [x9c; x02; x00; x51]]
           close_ok.

(** A faulty device delivering zeros. *)
Definition all_zero : System :=
  mkSystem [open_fd 3] (fstat_mode S_IFCHR) [read_bytes (repeat x00 32)]
           close_ok.

(** The caller: [errno] holds 77, [buf] eight bytes of [0xff]. *)
Definition caller : State := mkState 77 (repeat xff 8).

End Devices.

(** * Properties *)

(** ** Machine integers *)

Lemma wrap_mod (w x : Z) : 0 <= w -> wrap w x = x mod 2 ^ w.
Proof. intros Hw. unfold wrap. now rewrite Z.land_ones. Qed.

Lemma wrap_idem (w x : Z) : 0 <= w -> wrap w (wrap w x) = wrap w x.
Proof.
  intros Hw. rewrite !wrap_mod by assumption.
  apply Z.mod_mod. apply Z.pow_nonzero; lia.
Qed.

Lemma wrap_small (w x : Z) : 0 <= w -> 0 <= x < 2 ^ w -> wrap w x = x.
Proof. intros Hw Hx. rewrite wrap_mod by assumption. now apply Z.mod_small. Qed.

Lemma top_bit_clear (p x : Z) : 0 <= p -> 0 <= x < 2 ^ p -> Z.testbit x p = false.
Proof.
  intros Hp Hx. apply Z.testbit_false; [assumption|].
  now rewrite Z.div_small.
Qed.

Lemma top_bit_set (p x : Z) :
  0 <= p -> 2 ^ p <= x < 2 ^ (p + 1) -> Z.testbit x p = true.
Proof.
  intros Hp Hx. apply Z.testbit_true; [assumption|].
  rewrite Z.pow_add_r, Z.pow_1_r in Hx by lia.
  assert (Hq : x / 2 ^ p = 1).
  { symmetry. apply (Z.div_unique x (2 ^ p) 1 (x - 2 ^ p)); lia. }
  now rewrite Hq.
Qed.

(** Reading as signed what was stored from a signed number in range gives
    the number back. *)
Lemma sign_wrap (w n : Z) :
  0 < w -> - 2 ^ (w - 1) <= n < 2 ^ (w - 1) -> sign w (wrap w n) = n.
Proof.
  intros Hw Hn.
  assert (Hpow : 2 ^ w = 2 * 2 ^ (w - 1)).
  { replace w with (w - 1 + 1) at 1 by lia.
    rewrite Z.pow_add_r, Z.pow_1_r by lia. lia. }
  unfold sign. rewrite wrap_mod by lia.
  rewrite Z.shiftl_1_l.
  destruct (Z_lt_le_dec n 0) as [Hneg | Hpos].
  - assert (Hm : n mod 2 ^ w = n + 2 ^ w).
    { symmetry. apply (Z.mod_unique n (2 ^ w) (-1)); lia. }
    rewrite Hm, top_bit_set; [lia | lia |].
    replace (w - 1 + 1) with w by lia. lia.
  - rewrite Z.mod_small by lia.
    rewrite top_bit_clear by lia. reflexivity.
Qed.

(** The low half of a cell whose low half was just written. *)
Lemma wrap32_low_half (h n : Z) :
  wrap 32 (Z.lor (Z.shiftl h 32) (wrap 32 n)) = wrap 32 n.
Proof.
  unfold wrap. apply Z.bits_inj'. intros i Hi.
  rewrite !Z.land_spec, Z.lor_spec, Z.land_spec.
  destruct (Z_lt_le_dec i 32) as [Hlo | Hhi].
  - rewrite Z.shiftl_spec_low by assumption.
    now destruct (Z.testbit n i), (Z.testbit (Z.ones 32) i).
  - rewrite (Z.ones_spec_high 32 i) by lia.
    now rewrite !andb_false_r.
Qed.

(** ** The union arms *)

Module ArmFacts.
Import PPAPI.

Lemma as_id_set_as_id vv id : int64_range id -> as_id (set_as_id vv id) = id.
Proof.
  intros Hid. unfold as_id, set_as_id.
  rewrite wrap_idem by lia. apply sign_wrap; [lia | exact Hid].
Qed.

(** Assigning [as_id] leaves nothing of what the union held before. *)
Lemma set_as_id_overwrites vv vv' id : set_as_id vv id = set_as_id vv' id.
Proof. reflexivity. Qed.

Lemma as_int_set_as_int vv n : int32_range n -> as_int (set_as_int vv n) = n.
Proof.
  intros Hn. unfold as_int, set_as_int, high_half.
  rewrite wrap32_low_half. apply sign_wrap; [lia | exact Hn].
Qed.

Lemma as_bool_set_as_bool vv b : as_bool (set_as_bool vv b) = PP_Bool_to_int b.
Proof.
  unfold as_bool, set_as_bool, high_half.
  rewrite wrap32_low_half. now destruct b.
Qed.

Lemma as_double_set_as_double vv d :
  binary64 d -> as_double (set_as_double vv d) = d.
Proof.
  intros Hd. unfold as_double, set_as_double.
  rewrite wrap_idem by lia. apply wrap_small; [lia | exact Hd].
Qed.

Lemma bool_of_int_of_bool x : bool_of_int (PP_Bool_to_int (PP_Bool_of_bool x)) = x.
Proof. now destruct x. Qed.

End ArmFacts.

(** ** Variants *)

Import PPAPI.

(** The table of reference encoders names the five reference Kinds, each
    once, in both translation units. *)
Lemma reference_encoders_kinds :
  map fst Helper.reference_encoders =
    [PP_VARTYPE_STRING; PP_VARTYPE_OBJECT; PP_VARTYPE_ARRAY;
     PP_VARTYPE_DICTIONARY; PP_VARTYPE_ARRAY_BUFFER]
  /\ map fst LibHelper.reference_encoders = map fst Helper.reference_encoders.
Proof. split; reflexivity. Qed.

(** What a reference encoder builds: the Kind of its row, a zero reserved
    word and the identity in the [as_id] arm. *)
Lemma reference_encoder_builds k enc id :
  In (k, enc) (Helper.reference_encoders ++ LibHelper.reference_encoders) ->
  enc id = mkVar k 0 (set_as_id uninitialized id).
Proof.
  simpl. intros Hin.
  repeat (destruct Hin as [Heq | Hin]; [injection Heq as <- <-; reflexivity|]).
  destruct Hin.
Qed.

Lemma id_decoders dec v :
  In dec [Helper.id_from_var; LibHelper.id_from_var] -> dec v = as_id (value v).
Proof. simpl. intros [<- | [<- | []]]; reflexivity. Qed.

(** C1.  For every reference Kind [k], with [enc] the encoder of that Kind
    (in either translation unit), and every 64-bit identity [id]:
    [id_from_var (enc id) = id], the Variant built has Kind [k], and
    [id_from_var] reads the same identity whatever Kind the Variant
    carries. *)
Theorem reference_round_trip :
  forall k enc dec id,
    In (k, enc) (Helper.reference_encoders ++ LibHelper.reference_encoders) ->
    In dec [Helper.id_from_var; LibHelper.id_from_var] ->
    int64_range id ->
    dec (enc id) = id
    /\ type (enc id) = k
    /\ forall v k', dec (mkVar k' (padding v) (value v)) = dec v.
Proof.
  intros k enc dec id Henc Hdec Hid.
  rewrite (reference_encoder_builds k enc id Henc).
  repeat split.
  - rewrite (id_decoders dec _ Hdec). simpl.
    now apply ArmFacts.as_id_set_as_id.
  - intros v k'. now rewrite !(id_decoders dec _ Hdec).
Qed.

Lemma reference_round_trip_witness :
  LibHelper.id_from_var (LibHelper.string_id_to_var 42) = 42
  /\ type (LibHelper.string_id_to_var 42) = PP_VARTYPE_STRING
  /\ forall v k',
       LibHelper.id_from_var (mkVar k' (padding v) (value v))
       = LibHelper.id_from_var v.
Proof.
  apply (reference_round_trip PP_VARTYPE_STRING LibHelper.string_id_to_var
                              LibHelper.id_from_var 42).
  - simpl. tauto.
  - simpl. tauto.
  - unfold int64_range. lia.
Defined.

(** The same round trip for an identity given as an unsigned 64-bit
    number, which crosses as the [int64_t] of the same bits. *)
Lemma reference_round_trip_unsigned k enc dec (id : Z) :
  In (k, enc) (Helper.reference_encoders ++ LibHelper.reference_encoders) ->
  In dec [Helper.id_from_var; LibHelper.id_from_var] ->
  0 <= id < 2 ^ 64 ->
  wrap 64 (dec (enc (sign 64 id))) = id.
Proof.
  intros Henc Hdec Hid.
  rewrite (reference_encoder_builds k enc _ Henc), (id_decoders dec _ Hdec).
  simpl. unfold as_id, set_as_id, sign.
  rewrite Z.shiftl_1_l.
  assert (Hw : forall x, wrap 64 (x - 2 ^ 64) = wrap 64 x).
  { intros x. rewrite !wrap_mod by lia.
    replace (x - 2 ^ 64) with (x + (-1) * 2 ^ 64) by lia.
    apply Z.mod_add. lia. }
  destruct (Z.testbit id (64 - 1));
    [rewrite Hw | ]; rewrite wrap_idem by lia;
    (destruct (Z.testbit (wrap 64 id) (64 - 1)); [rewrite Hw |]);
    rewrite wrap_idem by lia; apply wrap_small; lia.
Qed.

(** C2.  In both translation units: [bool_from_var (bool_to_var x) = x]
    for every boolean [x]; [i32_from_var (i32_to_var n) = n] for every
    32-bit signed [n]; [f64_from_var (f64_to_var d) = d] for every double
    [d], given by its 64-bit encoding. *)
Theorem scalar_round_trip :
  (forall x : bool,
      Helper.bool_from_var (Helper.bool_to_var x) = x
      /\ LibHelper.bool_from_var (LibHelper.bool_to_var x) = x)
  /\ (forall n : Z, int32_range n ->
      Helper.i32_from_var (Helper.i32_to_var n) = n
      /\ LibHelper.i32_from_var (LibHelper.i32_to_var n) = n)
  /\ (forall d : Z, binary64 d ->
      Helper.f64_from_var (Helper.f64_to_var d) = d
      /\ LibHelper.f64_from_var (LibHelper.f64_to_var d) = d).
Proof.
  split; [| split].
  - intros x.
    unfold Helper.bool_from_var, Helper.bool_to_var,
      LibHelper.bool_from_var, LibHelper.bool_to_var, PP_MakeBool. simpl value.
    rewrite ArmFacts.as_bool_set_as_bool, ArmFacts.bool_of_int_of_bool.
    now split.
  - intros n Hn.
    unfold Helper.i32_from_var, Helper.i32_to_var,
      LibHelper.i32_from_var, LibHelper.i32_to_var, PP_MakeInt32. simpl value.
    rewrite ArmFacts.as_int_set_as_int by assumption. now split.
  - intros d Hd.
    unfold Helper.f64_from_var, Helper.f64_to_var,
      LibHelper.f64_from_var, LibHelper.f64_to_var, PP_MakeDouble. simpl value.
    rewrite ArmFacts.as_double_set_as_double by assumption. now split.
Qed.

Lemma scalar_round_trip_witness :
  LibHelper.bool_from_var (LibHelper.bool_to_var true) = true
  /\ (int32_range (-7) /\ LibHelper.i32_from_var (LibHelper.i32_to_var (-7)) = -7)
  /\ (binary64 4609434218613702656
      /\ Helper.f64_from_var (Helper.f64_to_var 4609434218613702656)
         = 4609434218613702656).
Proof.
  destruct scalar_round_trip as [Hb [Hi Hd]].
  split; [apply (Hb true) |].
  assert (H7 : int32_range (-7)) by (unfold int32_range; lia).
  assert (H15 : binary64 4609434218613702656) by (unfold binary64; lia).
  split; split; try assumption.
  - apply (Hi (-7) H7).
  - apply (Hd 4609434218613702656 H15).
Defined.

(** What each encoder builds, by cases on how the Variant was encoded. *)
Lemma payload_encoded_inv v :
  Helper.payload_encoded v \/ LibHelper.payload_encoded v ->
  exists k vv,
    v = mkVar k 0 vv
    /\ In k [PP_VARTYPE_BOOL; PP_VARTYPE_INT32; PP_VARTYPE_DOUBLE;
             PP_VARTYPE_STRING; PP_VARTYPE_OBJECT; PP_VARTYPE_ARRAY;
             PP_VARTYPE_DICTIONARY; PP_VARTYPE_ARRAY_BUFFER].
Proof.
  assert (Href : forall k enc id,
    In (k, enc) (Helper.reference_encoders ++ LibHelper.reference_encoders) ->
    exists k vv, enc id = mkVar k 0 vv
      /\ In k [PP_VARTYPE_BOOL; PP_VARTYPE_INT32; PP_VARTYPE_DOUBLE;
               PP_VARTYPE_STRING; PP_VARTYPE_OBJECT; PP_VARTYPE_ARRAY;
               PP_VARTYPE_DICTIONARY; PP_VARTYPE_ARRAY_BUFFER]).
  { intros k enc id Hin.
    exists k, (set_as_id uninitialized id). split.
    - now apply reference_encoder_builds.
    - simpl in Hin.
      repeat (destruct Hin as [Heq | Hin];
              [injection Heq as <- _; simpl; tauto|]).
      destruct Hin. }
  intros [H | H]; destruct H as [b | n | d | k enc id Hin];
    try (eapply Href; apply in_or_app; eauto; fail);
    eexists _, _; (split; [reflexivity | simpl; tauto]).
Qed.

(** C3.  Every Variant built by an encoder of either translation unit
    ([make_undefined_var], [make_null_var], [bool_to_var], [i32_to_var],
    [f64_to_var] and the five reference encoders) has a zero reserved
    word. *)
Theorem encoded_padding_zero :
  forall v, Helper.encoded v \/ LibHelper.encoded v -> padding v = 0.
Proof.
  intros v [H | H]; destruct H as [ | | v Hv]; try reflexivity.
  - destruct (payload_encoded_inv v (or_introl Hv)) as (k & vv & -> & _).
    reflexivity.
  - destruct (payload_encoded_inv v (or_intror Hv)) as (k & vv & -> & _).
    reflexivity.
Qed.

Lemma encoded_padding_zero_witness :
  LibHelper.encoded (LibHelper.dictionary_id_to_var 7)
  /\ padding (LibHelper.dictionary_id_to_var 7) = 0.
Proof.
  assert (H : LibHelper.encoded (LibHelper.dictionary_id_to_var 7)).
  { apply LibHelper.by_payload.
    apply (LibHelper.by_id_to_var PP_VARTYPE_DICTIONARY).
    simpl. tauto. }
  split; [exact H |].
  apply (encoded_padding_zero _ (or_intror H)).
Defined.

(** C7.  In both translation units the Kind tags of [make_undefined_var]
    and [make_null_var] differ from each other, and each differs from the
    Kind tag of every Variant built by a scalar or a reference encoder. *)
Theorem undefined_null_kinds_distinct :
  PP_VarType_tag (type Helper.make_undefined_var)
    <> PP_VarType_tag (type Helper.make_null_var)
  /\ PP_VarType_tag (type LibHelper.make_undefined_var)
    <> PP_VarType_tag (type LibHelper.make_null_var)
  /\ forall v,
      Helper.payload_encoded v \/ LibHelper.payload_encoded v ->
      PP_VarType_tag (type v) <> PP_VarType_tag (type Helper.make_undefined_var)
      /\ PP_VarType_tag (type v) <> PP_VarType_tag (type Helper.make_null_var)
      /\ PP_VarType_tag (type v)
           <> PP_VarType_tag (type LibHelper.make_undefined_var)
      /\ PP_VarType_tag (type v)
           <> PP_VarType_tag (type LibHelper.make_null_var).
Proof.
  split; [discriminate | split; [discriminate |]].
  intros v Hv.
  destruct (payload_encoded_inv v Hv) as (k & vv & -> & Hk).
  simpl in Hk. simpl type.
  repeat (destruct Hk as [<- | Hk]; [repeat split; discriminate |]).
  destruct Hk.
Qed.

Lemma undefined_null_kinds_distinct_witness :
  LibHelper.payload_encoded (LibHelper.f64_to_var 0)
  /\ PP_VarType_tag (type (LibHelper.f64_to_var 0))
       <> PP_VarType_tag (type LibHelper.make_undefined_var)
  /\ PP_VarType_tag (type (LibHelper.f64_to_var 0))
       <> PP_VarType_tag (type LibHelper.make_null_var).
Proof.
  assert (H : LibHelper.payload_encoded (LibHelper.f64_to_var 0))
    by apply LibHelper.by_f64_to_var.
  split; [exact H |].
  destruct undefined_null_kinds_distinct as (_ & _ & Hall).
  destruct (Hall _ (or_intror H)) as (_ & _ & Hu & Hn).
  split; assumption.
Defined.

(** The Kind, as an enumeration member, is told apart by its tag. *)
Lemma PP_VarType_tag_inj k k' : PP_VarType_tag k = PP_VarType_tag k' -> k = k'.
Proof. destruct k, k'; simpl; intros H; (reflexivity || discriminate H). Qed.

(** ** Standard streams *)

(** C8.  [stdout_file] returns the standard input stream, not the standard
    output stream; [stderr_file] returns the standard error stream. *)
Theorem stdout_file_is_stdin :
  Helper.stdout_file = Helper.stdin
  /\ Helper.stdout_file <> Helper.stdout
  /\ Helper.stderr_file = Helper.stderr.
Proof. repeat split. discriminate. Qed.

(** ** The two translation units *)

(** C9.  Every function defined in both [src/src/helper.cpp] and
    [src/src/libhelper/helper.cpp] computes the same result in both, on all
    inputs; for [run_completion_callback] the result is the world it
    leaves. *)
Theorem translation_units_agree :
  forall (P : Plugin),
  (forall func user_data,
      Helper.make_completion_callback func user_data
      = LibHelper.make_completion_callback func user_data)
  /\ (forall func code w,
      Helper.run_completion_callback func code w
      = LibHelper.run_completion_callback func code w)
  /\ Helper.make_undefined_var = LibHelper.make_undefined_var
  /\ Helper.make_null_var = LibHelper.make_null_var
  /\ (forall value, Helper.bool_to_var value = LibHelper.bool_to_var value)
  /\ (forall v, Helper.bool_from_var v = LibHelper.bool_from_var v)
  /\ (forall value, Helper.i32_to_var value = LibHelper.i32_to_var value)
  /\ (forall v, Helper.i32_from_var v = LibHelper.i32_from_var v)
  /\ (forall value, Helper.f64_to_var value = LibHelper.f64_to_var value)
  /\ (forall v, Helper.f64_from_var v = LibHelper.f64_from_var v)
  /\ (forall id, Helper.string_id_to_var id = LibHelper.string_id_to_var id)
  /\ (forall id, Helper.object_id_to_var id = LibHelper.object_id_to_var id)
  /\ (forall id, Helper.array_id_to_var id = LibHelper.array_id_to_var id)
  /\ (forall id,
      Helper.dictionary_id_to_var id = LibHelper.dictionary_id_to_var id)
  /\ (forall id,
      Helper.array_buffer_id_to_var id = LibHelper.array_buffer_id_to_var id)
  /\ (forall v, Helper.id_from_var v = LibHelper.id_from_var v).
Proof. intros P. repeat split. Qed.

(** ** Completion callbacks *)

Lemma call_indirect_spec (P : Plugin) f user_data result (w : World) :
  f <> NULL ->
  call_indirect f user_data result w
  = Some (tt, mkWorld (invoked w ++ [mkInvocation f user_data result])
                      (body f user_data result (heap w))).
Proof.
  intros Hf. unfold call_indirect.
  destruct (Z.eqb_spec f NULL) as [Heq | _]; [contradiction | reflexivity].
Qed.

(** Running the sentinel of [block_until_complete] is a call through
    [NULL]: a fault. *)
Lemma run_block_until_complete_faults (P : Plugin) code (w : World) :
  LibHelper.extern_C
    (LibHelper.call_run_completion_callback LibHelper.block_until_complete code)
    w = None.
Proof. reflexivity. Qed.

(** C4.  For every function reference [f], context [ctx] and result code
    [r], with the constructor and the runner of either translation unit:
    building the callback leaves the world as it was, no call made; running
    the callback built from [f] and [ctx] with [r] adds exactly one call,
    of [f] with [(ctx, r)], and changes the plugin's state by what that one
    call does, nothing else. *)
Theorem callback_invoked_exactly_once :
  forall (P : Plugin) make run f ctx r (w : World),
    In make [Helper.make_completion_callback;
             LibHelper.make_completion_callback] ->
    In run [Helper.run_completion_callback;
            LibHelper.run_completion_callback] ->
    f <> NULL ->
    LibHelper.extern_C (LibHelper.call_make_completion_callback f ctx) w
    = Some (LibHelper.ret_callback (make f ctx), w)
    /\ run (make f ctx) r w
       = Some (tt, mkWorld (invoked w ++ [mkInvocation f ctx r])
                           (body f ctx r (heap w))).
Proof.
  intros P make run f ctx r w Hmake Hrun Hf.
  assert (Hm : make f ctx = mkCallback f ctx PP_COMPLETIONCALLBACK_FLAG_NONE).
  { simpl in Hmake. destruct Hmake as [<- | [<- | []]]; reflexivity. }
  assert (Hr : forall cb, run cb r w = call_indirect (func cb) (user_data cb) r w).
  { intros cb. simpl in Hrun. destruct Hrun as [<- | [<- | []]]; reflexivity. }
  split.
  - rewrite Hm. reflexivity.
  - rewrite Hr, Hm. simpl. now apply call_indirect_spec.
Qed.

Lemma callback_invoked_exactly_once_witness :
  4096 <> NULL
  /\ @Helper.run_completion_callback recording_plugin
       (Helper.make_completion_callback 4096 17) (-3)
       (@mkWorld recording_plugin [] [])
     = Some (tt, @mkWorld recording_plugin
                   [mkInvocation 4096 17 (-3)] [(17, -3)]).
Proof.
  assert (H : 4096 <> NULL) by (unfold NULL; lia).
  split; [exact H |].
  apply (callback_invoked_exactly_once recording_plugin
           Helper.make_completion_callback
           (@Helper.run_completion_callback recording_plugin)
           4096 17 (-3) (@mkWorld recording_plugin [] [])).
  - simpl. tauto.
  - simpl. tauto.
  - exact H.
Defined.

(** ** Totality *)

(** C6.  Every Variant encode or decode operation and every callback
    construction returns a value, on every input and in every world, and
    leaves the world as it was; a decoder returns the same value whatever
    the Kind and the reserved word of its argument: it checks neither. *)
Theorem variant_and_construction_total :
  forall (P : Plugin) (c : LibHelper.Call) (w : World),
    LibHelper.is_variant_or_construction c = true ->
    (exists r, LibHelper.extern_C c w = Some (r, w))
    /\ forall k p k' p' vv,
        LibHelper.extern_C (LibHelper.call_bool_from_var (mkVar k p vv)) w
        = LibHelper.extern_C (LibHelper.call_bool_from_var (mkVar k' p' vv)) w
        /\ LibHelper.extern_C (LibHelper.call_i32_from_var (mkVar k p vv)) w
        = LibHelper.extern_C (LibHelper.call_i32_from_var (mkVar k' p' vv)) w
        /\ LibHelper.extern_C (LibHelper.call_f64_from_var (mkVar k p vv)) w
        = LibHelper.extern_C (LibHelper.call_f64_from_var (mkVar k' p' vv)) w
        /\ LibHelper.extern_C (LibHelper.call_id_from_var (mkVar k p vv)) w
        = LibHelper.extern_C (LibHelper.call_id_from_var (mkVar k' p' vv)) w.
Proof.
  intros P c w Hc. split.
  - destruct c; try discriminate Hc; eexists; reflexivity.
  - intros k p k' p' vv. repeat split.
Qed.

Lemma variant_and_construction_total_witness :
  LibHelper.is_variant_or_construction
    (LibHelper.call_i32_from_var (LibHelper.bool_to_var true)) = true
  /\ exists r,
      @LibHelper.extern_C recording_plugin
        (LibHelper.call_i32_from_var (LibHelper.bool_to_var true))
        (@mkWorld recording_plugin [] [])
      = Some (r, @mkWorld recording_plugin [] []).
Proof.
  split; [reflexivity |].
  apply (variant_and_construction_total recording_plugin
           (LibHelper.call_i32_from_var (LibHelper.bool_to_var true))
           (@mkWorld recording_plugin [] []) eq_refl).
Defined.

(** ** Entropy *)

Import Getentropy.

Lemma to_N_zero (c : byte) : Byte.to_N c = 0%N -> c = x00.
Proof.
  intros H. pose proof (Byte.of_to_N c) as Hc.
  rewrite H in Hc. simpl in Hc. now injection Hc.
Qed.

Lemma fold_lor_zero (l : list byte) (a : N) :
  fold_left (fun any_set c => N.lor any_set (Byte.to_N c)) l a = 0%N
  <-> a = 0%N /\ Forall (eq x00) l.
Proof.
  revert a. induction l as [| c l IH]; intros a; simpl.
  - split; [intros ->; split; constructor | now intros [-> _]].
  - rewrite IH, N.lor_eq_0_iff. split.
    + intros [[Ha Hc] Hl]. split; [assumption |].
      constructor; [symmetry; now apply to_N_zero | assumption].
    + intros [Ha Hl]. inversion Hl as [| c' l' Hc Hl']; subst.
      repeat split; assumption.
Qed.

(** [gotdata] answers [-1] exactly when the first [len] bytes are all
    zero, and [0] otherwise. *)
Lemma gotdata_fails_iff (b : list byte) (len : nat) :
  gotdata b len = -1 <-> Forall (eq x00) (firstn len b).
Proof.
  unfold gotdata.
  destruct (N.eqb_spec
    (fold_left (fun any_set c => N.lor any_set (Byte.to_N c)) (firstn len b) 0%N)
    0%N) as [Hz | Hnz].
  - apply fold_lor_zero in Hz. tauto.
  - split; [discriminate |].
    intros Hall. exfalso. apply Hnz. apply fold_lor_zero. now split.
Qed.

Lemma gotdata_succeeds_iff (b : list byte) (len : nat) :
  gotdata b len = 0 <-> exists c, In c (firstn len b) /\ c <> x00.
Proof.
  split.
  - intros H0.
    destruct (Exists_dec (fun c => c <> x00) (firstn len b)) as [Hex | Hnex].
    + intros c. destruct (Byte.byte_eq_dec c x00); [right | left]; tauto.
    + apply Exists_exists in Hex. exact Hex.
    + assert (Hall : Forall (eq x00) (firstn len b)).
      { apply Forall_forall. intros c Hc.
        destruct (Byte.byte_eq_dec c x00) as [-> | Hne]; [reflexivity |].
        exfalso. apply Hnex. apply Exists_exists. now exists c. }
      apply gotdata_fails_iff in Hall. congruence.
  - intros (c & Hin & Hne).
    assert (Hnot : gotdata b len <> -1).
    { intros Hf. apply gotdata_fails_iff in Hf.
      rewrite Forall_forall in Hf. apply Hne. symmetry. now apply Hf. }
    unfold gotdata in *.
    destruct (N.eqb _ _); [congruence | reflexivity].
Qed.

(** *** Opening the device *)

Lemma start_interrupted (k : nat) (rest : list open_answer) (s : State) :
  (0 < k)%nat ->
  start (repeat (open_error EINTR) k ++ rest) s = start rest (set_errno EINTR s).
Proof.
  intros Hk. destruct k as [| k]; [lia | clear Hk].
  revert s. induction k as [| k IH]; intros s.
  - reflexivity.
  - change (start (repeat (open_error EINTR) (S (S k)) ++ rest) s)
      with (start (repeat (open_error EINTR) (S k) ++ rest) (set_errno EINTR s)).
    now rewrite IH.
Qed.

(** After any number of interruptions, [open] failing for another reason
    leads to [nodevrandom]; what [buf] holds is as before. *)
Lemma start_refused sys k e s :
  opens_with sys k (open_error e) -> e <> EINTR ->
  exists s', start (on_open sys) s = Some (-1, s') /\ buf s' = buf s.
Proof.
  intros [rest ->] He.
  assert (Hone : forall s0,
    start (open_error e :: rest) s0 = Some (-1, set_errno e s0)).
  { intros s0. simpl. destruct (Z.eqb_spec e EINTR); [contradiction | reflexivity]. }
  destruct k as [| k].
  - simpl repeat. simpl app. rewrite Hone. eexists. split; reflexivity.
  - rewrite start_interrupted by lia. rewrite Hone. eexists. split; reflexivity.
Qed.

Lemma start_opened sys k fd s :
  opens_with sys k (open_fd fd) -> fd <> -1 ->
  exists s', start (on_open sys) s = Some (fd, s') /\ buf s' = buf s.
Proof.
  intros [rest ->] Hfd.
  assert (Hone : forall s0, start (open_fd fd :: rest) s0 = Some (fd, s0)).
  { intros s0. simpl. destruct (Z.eqb_spec fd (-1)); [contradiction | reflexivity]. }
  destruct k as [| k].
  - simpl repeat. simpl app. rewrite Hone. eexists. split; reflexivity.
  - rewrite start_interrupted by lia. rewrite Hone. eexists. split; reflexivity.
Qed.

Lemma start_keeps_buf answers s fd s' :
  start answers s = Some (fd, s') -> buf s' = buf s.
Proof.
  revert s. induction answers as [| a answers IH]; intros s; simpl.
  - discriminate.
  - destruct a as [fd0 | e]; simpl.
    + destruct (fd0 =? -1).
      * destruct (errno s =? EINTR).
        -- apply IH.
        -- now intros [= _ <-].
      * now intros [= _ <-].
    + destruct (e =? EINTR).
      * intros H. now rewrite (IH _ H).
      * now intros [= _ <-].
Qed.

(** *** The read loop *)

Lemma in_store c b i data : In c (store b i data) -> In c b \/ In c data.
Proof.
  unfold store. rewrite !in_app_iff.
  intros [H | [H | H]].
  - left. rewrite <- (firstn_skipn i b). apply in_or_app. now left.
  - now right.
  - left. rewrite <- (firstn_skipn (i + length data) b).
    apply in_or_app. now right.
Qed.

Lemma in_firstn_in c n (l : list byte) : In c (firstn n l) -> In c l.
Proof.
  intros H. rewrite <- (firstn_skipn n l). apply in_or_app. now left.
Qed.

(** Whatever the loop leaves in [buf] was there before or came with a
    [read]. *)
Lemma read_loop_provenance answers len i s ok s' :
  read_loop answers len i s = Some (ok, s') ->
  forall c, In c (buf s') ->
    In c (buf s) \/ exists data, In (read_bytes data) answers /\ In c data.
Proof.
  revert i s. induction answers as [| a answers IH]; intros i s; simpl.
  - destruct (i <? len)%nat; [discriminate |].
    intros [= _ <-] c Hc. now left.
  - destruct (i <? len)%nat; [| intros [= _ <-] c Hc; now left].
    destruct a as [data | e]; simpl.
    + set (got := firstn (len - i) data).
      assert (Hgot : forall c, In c (store (buf s) i got) ->
                In c (buf s) \/ In c data).
      { intros c Hc. apply in_store in Hc.
        destruct Hc as [Hc | Hc]; [now left | right].
        now apply in_firstn_in in Hc. }
      destruct (Z.of_nat (length got) =? -1).
      * destruct ((errno s =? EAGAIN) || (errno s =? EINTR)).
        -- intros H c Hc. destruct (IH _ _ H c Hc) as [Hb | (d & Hd & Hcd)].
           ++ destruct (Hgot c Hb); [now left | right; exists data; auto].
           ++ right. exists d. auto.
        -- intros [= _ <-] c Hc. simpl in Hc.
           destruct (Hgot c Hc); [now left | right; exists data; auto].
      * intros H c Hc. destruct (IH _ _ H c Hc) as [Hb | (d & Hd & Hcd)].
        -- destruct (Hgot c Hb); [now left | right; exists data; auto].
        -- right. exists d. auto.
    + destruct ((e =? EAGAIN) || (e =? EINTR)).
      * intros H c Hc. destruct (IH _ _ H c Hc) as [Hb | (d & Hd & Hcd)].
        -- now left.
        -- right. exists d. auto.
      * intros [= _ <-] c Hc. now left.
Qed.

(** The loop goes through answers that are passed over and offer fewer
    bytes than are still wanted. *)
Lemma read_loop_passes pre rest len i s :
  forallb passed_over pre = true ->
  (i + total_bytes pre < len)%nat ->
  exists s', read_loop (pre ++ rest) len i s
             = read_loop rest len (i + total_bytes pre) s'.
Proof.
  revert i s. induction pre as [| a pre IH]; intros i s Hq Hlt.
  - exists s. simpl. unfold total_bytes. simpl. now rewrite Nat.add_0_r.
  - simpl in Hq. apply andb_true_iff in Hq. destruct Hq as [Ha Hq].
    assert (Htot : total_bytes (a :: pre)
                   = (length (offered a) + total_bytes pre)%nat).
    { unfold total_bytes. simpl. now rewrite length_app. }
    rewrite Htot in *.
    change ((a :: pre) ++ rest) with (a :: pre ++ rest).
    cbn [read_loop].
    assert (Hi : (i <? len)%nat = true) by (apply Nat.ltb_lt; lia).
    rewrite Hi.
    destruct a as [data | e]; simpl in *.
    + rewrite firstn_all2 by lia.
      destruct (Z.eqb_spec (Z.of_nat (length data)) (-1)) as [Hm | _]; [lia |].
      rewrite Nat2Z.id.
      destruct (IH (i + length data)%nat
                   (mkState (errno s) (store (buf s) i data)) Hq) as [s' Hs'];
        [lia |].
      exists s'. rewrite Hs'. f_equal. lia.
    + rewrite Ha.
      destruct (IH i (set_errno e s) Hq) as [s' Hs']; [lia |].
      exists s'. exact Hs'.
Qed.

(** ... and stops at a [read] that fails for good ... *)
Lemma read_loop_fails pre e rest len s :
  forallb passed_over pre = true ->
  (total_bytes pre < len)%nat ->
  e <> EAGAIN -> e <> EINTR ->
  exists s', read_loop (pre ++ read_error e :: rest) len 0 s = Some (false, s').
Proof.
  intros Hq Hlt Ha Hi.
  destruct (read_loop_passes pre (read_error e :: rest) len 0 s Hq) as [s' ->];
    [lia |].
  simpl. assert (Hlt' : (total_bytes pre <? len)%nat = true)
    by (apply Nat.ltb_lt; lia).
  rewrite Hlt'.
  destruct (Z.eqb_spec e EAGAIN); [contradiction |].
  destruct (Z.eqb_spec e EINTR); [contradiction |].
  simpl. eexists. reflexivity.
Qed.

(** ... or ends when a [read] brings the last bytes wanted. *)
Lemma read_loop_completes pre data rest len s :
  forallb passed_over pre = true ->
  (total_bytes pre < len <= total_bytes pre + length data)%nat ->
  exists s', read_loop (pre ++ read_bytes data :: rest) len 0 s = Some (true, s').
Proof.
  intros Hq [Hlt Hle].
  destruct (read_loop_passes pre (read_bytes data :: rest) len 0 s Hq) as [s' ->];
    [lia |].
  simpl. assert (Hlt' : (total_bytes pre <? len)%nat = true)
    by (apply Nat.ltb_lt; lia).
  rewrite Hlt'.
  rewrite length_firstn, Nat.min_l by lia.
  destruct (Z.eqb_spec (Z.of_nat (len - total_bytes pre)) (-1)) as [Hm | _];
    [lia |].
  rewrite Nat2Z.id.
  replace (total_bytes pre + (len - total_bytes pre))%nat with len by lia.
  destruct rest; simpl; rewrite Nat.ltb_irrefl; eexists; reflexivity.
Qed.

Lemma read_loop_nothing_wanted answers s :
  read_loop answers 0 0 s = Some (true, s).
Proof. destruct answers; reflexivity. Qed.

(** *** The routine as a whole *)

Lemma sys_close_keeps_buf a s : buf (sys_close a s) = buf s.
Proof. now destruct a. Qed.

Lemma sys_fstat_keeps_buf a s : buf (snd (sys_fstat a s)) = buf s.
Proof. now destruct a. Qed.

(** The two ways out: [0] with [errno] as on entry and a byte set, or [-1]
    with [errno] at [EIO]. *)
Lemma getentropy_outcome sys len s r s' :
  getentropy sys len s = Some (r, s') ->
  (r = 0 /\ errno s' = errno s /\ gotdata (buf s') len = 0)
  \/ (r = -1 /\ errno s' = EIO).
Proof.
  unfold getentropy.
  destruct (start (on_open sys) s) as [[fd s1] |]; [| discriminate].
  destruct (fd =? -1); [intros [= <- <-]; now right |].
  destruct (sys_fstat (on_fstat sys) s1) as [[r0 m] s2].
  destruct ((r0 =? -1) || negb (S_ISCHR m)); [intros [= <- <-]; now right |].
  destruct (read_loop (on_read sys) len 0 s2) as [[[|] s3] |];
    [| intros [= <- <-]; now right | discriminate].
  destruct (Z.eqb_spec (gotdata (buf (sys_close (on_close sys) s3)) len) 0)
    as [Hg | _]; intros [= <- <-]; [left | now right].
  repeat split; assumption.
Qed.

(** Every byte found in [buf] afterwards was there before or was delivered
    by a [read] on the device. *)
Lemma getentropy_provenance sys len s r s' :
  getentropy sys len s = Some (r, s') ->
  forall c, In c (buf s') ->
    In c (buf s) \/ exists data, In (read_bytes data) (on_read sys) /\ In c data.
Proof.
  unfold getentropy.
  destruct (start (on_open sys) s) as [[fd s1] |] eqn:Hstart; [| discriminate].
  apply start_keeps_buf in Hstart.
  destruct (fd =? -1).
  { intros [= _ <-] c Hc. simpl in Hc. rewrite Hstart in Hc. now left. }
  pose proof (sys_fstat_keeps_buf (on_fstat sys) s1) as Hstat.
  destruct (sys_fstat (on_fstat sys) s1) as [[r0 m] s2]. simpl in Hstat.
  destruct ((r0 =? -1) || negb (S_ISCHR m)).
  { intros [= _ <-] c Hc. simpl in Hc.
    rewrite sys_close_keeps_buf, Hstat, Hstart in Hc. now left. }
  destruct (read_loop (on_read sys) len 0 s2) as [[ok s3] |] eqn:Hloop;
    [| discriminate].
  assert (Hfinal : forall c, In c (buf (sys_close (on_close sys) s3)) ->
            In c (buf s)
            \/ exists data, In (read_bytes data) (on_read sys) /\ In c data).
  { intros c Hc. rewrite sys_close_keeps_buf in Hc.
    destruct (read_loop_provenance _ _ _ _ _ _ Hloop c Hc) as [Hb | Hd].
    - left. now rewrite <- Hstart, <- Hstat.
    - now right. }
  destruct ok.
  - destruct (gotdata _ _ =? 0); intros [= _ <-] c Hc; now apply Hfinal.
  - intros [= _ <-] c Hc. now apply Hfinal.
Qed.

Lemma getentropy_device_refused sys len s k e :
  opens_with sys k (open_error e) -> e <> EINTR ->
  getentropy sys len s = Some (-1, mkState EIO (buf s)).
Proof.
  intros Hopen He.
  destruct (start_refused sys k e s Hopen He) as (s1 & Hs & Hb).
  unfold getentropy. rewrite Hs. simpl.
  unfold nodevrandom, set_errno. now rewrite Hb.
Qed.

Lemma getentropy_device_not_sane sys len s k fd :
  opens_with sys k (open_fd fd) -> fd <> -1 ->
  (forall m, on_fstat sys = fstat_mode m -> S_ISCHR m = false) ->
  getentropy sys len s = Some (-1, mkState EIO (buf s)).
Proof.
  intros Hopen Hfd Hstat.
  destruct (start_opened sys k fd s Hopen Hfd) as (s1 & Hs & Hb).
  unfold getentropy. rewrite Hs.
  destruct (Z.eqb_spec fd (-1)) as [| _]; [contradiction |].
  destruct (on_fstat sys) as [m | e]; simpl.
  - rewrite (Hstat m eq_refl). simpl.
    unfold nodevrandom, set_errno. now rewrite sys_close_keeps_buf, Hb.
  - unfold nodevrandom, set_errno. now rewrite sys_close_keeps_buf, Hb.
Qed.

(** With the device ready the routine is at its read loop. *)
Lemma getentropy_at_read_loop sys len s :
  device_ready sys ->
  exists s2,
    getentropy sys len s
    = match read_loop (on_read sys) len 0 s2 with
      | None => None
      | Some (false, s3) => Some (nodevrandom (sys_close (on_close sys) s3))
      | Some (true, s3) =>
          let s4 := sys_close (on_close sys) s3 in
          if gotdata (buf s4) len =? 0
          then Some (0, set_errno (errno s) s4)
          else Some (nodevrandom s4)
      end.
Proof.
  intros [(k & fd & Hopen & Hfd) (m & Hm & Hchr)].
  destruct (start_opened sys k fd s Hopen Hfd) as (s1 & Hs & _).
  exists s1. unfold getentropy. rewrite Hs.
  destruct (Z.eqb_spec fd (-1)) as [| _]; [contradiction |].
  rewrite Hm. simpl. rewrite Hchr. reflexivity.
Qed.

Lemma getentropy_read_failed sys len s pre e rest :
  device_ready sys ->
  on_read sys = pre ++ read_error e :: rest ->
  forallb passed_over pre = true ->
  (total_bytes pre < len)%nat ->
  e <> EAGAIN -> e <> EINTR ->
  exists s', getentropy sys len s = Some (-1, s') /\ errno s' = EIO.
Proof.
  intros Hready Hreads Hpre Hlt Ha Hi.
  destruct (getentropy_at_read_loop sys len s Hready) as [s2 ->].
  rewrite Hreads.
  destruct (read_loop_fails pre e rest len s2 Hpre Hlt Ha Hi) as [s3 ->].
  eexists. split; reflexivity.
Qed.

(** Once the answers cover what is wanted, the routine comes back. *)
Lemma getentropy_returns sys len s pre data rest :
  device_ready sys ->
  on_read sys = pre ++ read_bytes data :: rest ->
  forallb passed_over pre = true ->
  (total_bytes pre < len <= total_bytes pre + length data)%nat ->
  exists r s', getentropy sys len s = Some (r, s').
Proof.
  intros Hready Hreads Hpre Hlen.
  destruct (getentropy_at_read_loop sys len s Hready) as [s2 ->].
  rewrite Hreads.
  destruct (read_loop_completes pre data rest len s2 Hpre Hlen) as [s3 ->].
  cbv zeta. destruct (gotdata _ _ =? 0); eexists _, _; reflexivity.
Qed.

Lemma firstn_repeat_le (c : byte) k n :
  (k <= n)%nat -> firstn k (repeat c n) = repeat c k.
Proof.
  revert n. induction k as [| k IH]; intros n Hk; [reflexivity |].
  destruct n as [| n]; [lia |]. simpl. f_equal. apply IH. lia.
Qed.

Lemma repeat_all_zero k : Forall (eq x00) (repeat x00 k).
Proof. induction k as [| k IH]; simpl; constructor; auto. Qed.

(** One [read] that brings all the bytes wanted ends the loop. *)
Lemma read_loop_one_read data rest len s :
  (0 < len <= length data)%nat ->
  read_loop (read_bytes data :: rest) len 0 s
  = Some (true, mkState (errno s) (store (buf s) 0 (firstn len data))).
Proof.
  intros [Hpos Hle]. cbn [read_loop sys_read].
  assert (H0 : (0 <? len)%nat = true) by now apply Nat.ltb_lt.
  rewrite H0, Nat.sub_0_r, length_firstn, Nat.min_l by assumption.
  destruct (Z.eqb_spec (Z.of_nat len) (-1)) as [| _]; [lia |].
  rewrite Nat2Z.id. simpl Nat.add.
  destruct rest; simpl; rewrite Nat.ltb_irrefl; reflexivity.
Qed.

(** A device that delivers zeros only: the routine reports failure. *)
Lemma getentropy_all_zero_device sys len s n rest :
  device_ready sys ->
  on_read sys = read_bytes (repeat x00 n) :: rest ->
  (len <= n)%nat ->
  exists s', getentropy sys len s = Some (-1, s') /\ errno s' = EIO.
Proof.
  intros Hready Hreads Hn.
  destruct (getentropy_at_read_loop sys len s Hready) as [s2 ->].
  rewrite Hreads.
  destruct (Nat.eq_dec len 0) as [-> | Hpos].
  - rewrite read_loop_nothing_wanted. cbv zeta.
    eexists. split; reflexivity.
  - rewrite read_loop_one_read by (rewrite repeat_length; lia).
    rewrite firstn_repeat_le by assumption.
    cbv zeta. rewrite sys_close_keeps_buf. simpl buf.
    assert (Hz : gotdata (store (buf s2) 0 (repeat x00 len)) len = -1).
    { apply gotdata_fails_iff. unfold store. simpl firstn. simpl app.
      rewrite firstn_app, repeat_length, Nat.sub_diag, firstn_O, app_nil_r.
      rewrite firstn_repeat_le by lia.
      apply repeat_all_zero. }
    rewrite Hz. simpl. eexists. split; reflexivity.
Qed.

Lemma interrupted_once_ready : device_ready Devices.interrupted_once.
Proof.
  split.
  - exists 0%nat, 3. split; [now exists [] | discriminate].
  - exists S_IFCHR. now split.
Qed.

(** C5, as first stated, fails: the first [read] on this device fails, the
    routine tries again and returns success. *)
Lemma getentropy_read_failure_retried :
  device_ready Devices.interrupted_once
  /\ on_read Devices.interrupted_once
     = read_error EINTR :: [read_bytes [x9c; x02; x00; x51]]
  /\ getentropy Devices.interrupted_once 4 Devices.caller
     = Some (0, mkState 77 [x9c; x02; x00; x51; xff; xff; xff; xff])
  /\ ~ (forall e rest s',
         on_read Devices.interrupted_once = read_error e :: rest ->
         getentropy Devices.interrupted_once 4 Devices.caller <> Some (0, s')).
Proof.
  split; [exact interrupted_once_ready |].
  split; [reflexivity | split; [reflexivity |]].
  intros H. now apply (H EINTR _ _ eq_refl eq_refl).
Qed.

(** C5, amended.  [getentropy] returns success only if a byte of the
    buffer it filled is not zero.  It reports failure, [-1], with the
    buffer untouched when [open] fails with an error other than [EINTR] or
    the descriptor fails the [fstat] / character-device check; it reports
    failure when a [read] fails with an error other than [EAGAIN] and
    [EINTR], and when the filled bytes are all zero, and it does come back
    once the reads cover the length.  Every byte it leaves in the buffer
    was there before or was delivered by a [read] of the device: there is
    no other source. *)
Theorem getentropy_fail_closed :
  forall sys len s,
    (forall s', getentropy sys len s = Some (0, s') ->
       exists c, In c (firstn len (buf s')) /\ c <> x00)
    /\ (forall k e, opens_with sys k (open_error e) -> e <> EINTR ->
          getentropy sys len s = Some (-1, mkState EIO (buf s)))
    /\ (forall k fd, opens_with sys k (open_fd fd) -> fd <> -1 ->
          (forall m, on_fstat sys = fstat_mode m -> S_ISCHR m = false) ->
          getentropy sys len s = Some (-1, mkState EIO (buf s)))
    /\ (forall pre e rest,
          device_ready sys ->
          on_read sys = pre ++ read_error e :: rest ->
          forallb passed_over pre = true ->
          (total_bytes pre < len)%nat ->
          e <> EAGAIN -> e <> EINTR ->
          exists s', getentropy sys len s = Some (-1, s') /\ errno s' = EIO)
    /\ (forall pre data rest,
          device_ready sys ->
          on_read sys = pre ++ read_bytes data :: rest ->
          forallb passed_over pre = true ->
          (total_bytes pre < len <= total_bytes pre + length data)%nat ->
          exists r s', getentropy sys len s = Some (r, s'))
    /\ (forall r s', getentropy sys len s = Some (r, s') ->
          Forall (eq x00) (firstn len (buf s')) ->
          r = -1 /\ errno s' = EIO)
    /\ (forall r s', getentropy sys len s = Some (r, s') ->
          forall c, In c (buf s') ->
            In c (buf s)
            \/ exists data, In (read_bytes data) (on_read sys) /\ In c data).
Proof.
  intros sys len s.
  assert (Hzero : forall r s',
    getentropy sys len s = Some (r, s') ->
    Forall (eq x00) (firstn len (buf s')) -> r = -1 /\ errno s' = EIO).
  { intros r s' H Hall.
    destruct (getentropy_outcome _ _ _ _ _ H) as [(_ & _ & Hg) | Hfail];
      [exfalso | exact Hfail].
    apply gotdata_fails_iff in Hall. rewrite Hall in Hg. discriminate Hg. }
  split; [| split; [| split; [| split; [| split; [| split]]]]].
  - intros s' H.
    destruct (getentropy_outcome _ _ _ _ _ H) as [(_ & _ & Hg) | (Hr & _)];
      [| discriminate Hr].
    now apply gotdata_succeeds_iff.
  - intros k e. apply getentropy_device_refused.
  - intros k fd. apply getentropy_device_not_sane.
  - intros pre e rest. apply getentropy_read_failed.
  - intros pre data rest. apply getentropy_returns.
  - exact Hzero.
  - intros r s'. apply getentropy_provenance.
Qed.

Lemma getentropy_fail_closed_witness :
  (opens_with Devices.missing 0 (open_error 2) /\ 2 <> EINTR)
  /\ getentropy Devices.missing 8 Devices.caller
     = Some (-1, mkState EIO (buf Devices.caller)).
Proof.
  assert (Hopen : opens_with Devices.missing 0 (open_error 2))
    by (exists []; reflexivity).
  assert (Hne : 2 <> EINTR) by (unfold EINTR; lia).
  split; [split; assumption |].
  destruct (getentropy_fail_closed Devices.missing 8 Devices.caller)
    as (_ & Hrefused & _).
  exact (Hrefused 0%nat 2 Hopen Hne).
Defined.

(** C10.  When [getentropy] returns [0], [errno] is what it was on entry,
    whatever [open], [read] and [close] did to it in between; when it
    returns otherwise it returns [-1] with [errno] at [EIO].  Two failing
    returns are the same to the caller, whatever their causes. *)
Theorem getentropy_errno :
  (forall sys len s r s',
      getentropy sys len s = Some (r, s') ->
      (r = 0 /\ errno s' = errno s) \/ (r = -1 /\ errno s' = EIO))
  /\ (forall sys1 len1 s1 r1 s1' sys2 len2 s2 r2 s2',
      getentropy sys1 len1 s1 = Some (r1, s1') ->
      getentropy sys2 len2 s2 = Some (r2, s2') ->
      r1 <> 0 -> r2 <> 0 ->
      r1 = r2 /\ errno s1' = errno s2').
Proof.
  split.
  - intros sys len s r s' H.
    destruct (getentropy_outcome _ _ _ _ _ H) as [(Hr & He & _) | Hfail];
      [left; now split | now right].
  - intros sys1 len1 s1 r1 s1' sys2 len2 s2 r2 s2' H1 H2 Hr1 Hr2.
    destruct (getentropy_outcome _ _ _ _ _ H1) as [(Hr & _) | (-> & ->)];
      [contradiction |].
    destruct (getentropy_outcome _ _ _ _ _ H2) as [(Hr & _) | (-> & ->)];
      [contradiction |].
    now split.
Qed.

Lemma getentropy_errno_witness :
  getentropy Devices.busy 5 Devices.caller
  = Some (0, mkState 77 [x9c; x02; x00; x00; x51; xff; xff; xff])
  /\ ((0 = 0 /\ 77 = errno Devices.caller) \/ (0 = -1 /\ 77 = EIO)).
Proof.
  assert (H : getentropy Devices.busy 5 Devices.caller
              = Some (0, mkState 77 [x9c; x02; x00; x00; x51; xff; xff; xff]))
    by reflexivity.
  split; [exact H |].
  destruct getentropy_errno as [Hone _].
  exact (Hone _ _ _ _ _ H).
Defined.

(** The two causes of failure, side by side: no device, and a device
    delivering zeros. *)
Lemma missing_and_all_zero_alike :
  getentropy Devices.missing 8 Devices.caller
  = Some (-1, mkState EIO (repeat xff 8))
  /\ getentropy Devices.all_zero 8 Devices.caller
     = Some (-1, mkState EIO (repeat x00 8))
  /\ getentropy Devices.regular_file 4 Devices.caller
     = Some (-1, mkState EIO (repeat xff 8)).
Proof. repeat split. Qed.

(** * Further properties *)

(** ** [gotdata] *)

(** X1.  [gotdata] answers [0] or [-1]: [-1] exactly when the first [len]
    bytes of the buffer are all zero (so always for [len = 0]), [0] exactly
    when one of them is not; bytes from [len] on play no part. *)
Theorem gotdata_spec :
  forall (b : list byte) (len : nat),
    (gotdata b len = -1 \/ gotdata b len = 0)
    /\ (gotdata b len = -1 <-> Forall (eq x00) (firstn len b))
    /\ (gotdata b len = 0 <-> exists c, In c (firstn len b) /\ c <> x00)
    /\ (forall b', firstn len b' = firstn len b ->
                   gotdata b' len = gotdata b len).
Proof.
  intros b len. split; [| split; [| split]].
  - unfold gotdata. destruct (N.eqb _ _); auto.
  - apply gotdata_fails_iff.
  - apply gotdata_succeeds_iff.
  - intros b' Hb. unfold gotdata. now rewrite Hb.
Qed.

Lemma gotdata_spec_witness :
  Forall (eq x00) (firstn 2 [x00; x00; x07])
  /\ gotdata [x00; x00; x07] 2 = -1.
Proof.
  assert (H : Forall (eq x00) (firstn 2 [x00; x00; x07]))
    by (repeat constructor).
  split; [exact H |].
  exact (proj2 (proj1 (proj2 (gotdata_spec [x00; x00; x07] 2))) H).
Defined.

(** ** [getentropy] *)

Lemma store_length b i (data : list byte) :
  (i + length data <= length b)%nat -> length (store b i data) = length b.
Proof.
  intros H. unfold store.
  rewrite !length_app, length_firstn, length_skipn. lia.
Qed.

Lemma firstn_store b i (data : list byte) :
  (i <= length b)%nat -> firstn (i + length data) (store b i data) = firstn i b ++ data.
Proof.
  intros H. unfold store.
  assert (Hl : length (firstn i b) = i) by (rewrite length_firstn; lia).
  rewrite app_assoc.
  rewrite firstn_app, length_app, Hl, Nat.sub_diag, firstn_O, app_nil_r.
  apply firstn_all2. rewrite length_app, Hl. lia.
Qed.

Lemma skipn_store b i (data : list byte) j :
  (i <= length b)%nat -> (i + length data <= j)%nat ->
  skipn j (store b i data) = skipn j b.
Proof.
  intros Hi Hj. unfold store.
  assert (Hl : length (firstn i b) = i) by (rewrite length_firstn; lia).
  rewrite app_assoc, skipn_app, length_app, Hl.
  rewrite skipn_all2 by (rewrite length_app, Hl; lia).
  rewrite skipn_skipn. simpl. f_equal. lia.
Qed.

(** The loop keeps the size of the buffer and what lies from [len] on. *)
Lemma read_loop_in_bounds answers len i s ok s' :
  read_loop answers len i s = Some (ok, s') ->
  (i <= len <= length (buf s))%nat ->
  length (buf s') = length (buf s) /\ skipn len (buf s') = skipn len (buf s).
Proof.
  revert i s. induction answers as [| a answers IH]; intros i s; simpl.
  - destruct (i <? len)%nat; [discriminate |]. intros [= _ <-] _. now split.
  - destruct (Nat.ltb_spec i len) as [Hlt | Hge];
      [| intros [= _ <-] _; now split].
    intros H Hb.
    destruct a as [data | e]; simpl in H.
    + set (got := firstn (len - i) data) in *.
      assert (Hgot : (length got <= len - i)%nat).
      { unfold got. rewrite length_firstn. lia. }
      assert (Hlen : length (store (buf s) i got) = length (buf s))
        by (apply store_length; lia).
      assert (Hskip : skipn len (store (buf s) i got) = skipn len (buf s))
        by (apply skipn_store; lia).
      destruct (Z.of_nat (length got) =? -1).
      * destruct ((errno s =? EAGAIN) || (errno s =? EINTR)).
        -- apply IH in H; simpl; [| lia].
           simpl in H. now rewrite Hlen, Hskip in H.
        -- injection H as _ <-. simpl. now split.
      * rewrite Nat2Z.id in H. apply IH in H; simpl; [| lia].
        simpl in H. now rewrite Hlen, Hskip in H.
    + destruct ((e =? EAGAIN) || (e =? EINTR)).
      * apply IH in H; simpl; [exact H | lia].
      * injection H as _ <-. simpl. now split.
Qed.

(** X2.  Bounds.  Whenever [getentropy] returns, with success or not, and
    the buffer holds [len] bytes at least, the buffer has the size it had
    and every byte from [len] on is as it was: nothing is written outside
    the [len] bytes asked for. *)
Theorem getentropy_writes_within_len :
  forall sys len s r s',
    (len <= length (buf s))%nat ->
    getentropy sys len s = Some (r, s') ->
    length (buf s') = length (buf s)
    /\ skipn len (buf s') = skipn len (buf s).
Proof.
  intros sys len s r s' Hlen. unfold getentropy.
  destruct (start (on_open sys) s) as [[fd s1] |] eqn:Hstart; [| discriminate].
  apply start_keeps_buf in Hstart.
  destruct (fd =? -1).
  { intros [= _ <-]. simpl. now rewrite Hstart. }
  pose proof (sys_fstat_keeps_buf (on_fstat sys) s1) as Hstat.
  destruct (sys_fstat (on_fstat sys) s1) as [[r0 m] s2]. simpl in Hstat.
  destruct ((r0 =? -1) || negb (S_ISCHR m)).
  { intros [= _ <-]. simpl. now rewrite sys_close_keeps_buf, Hstat, Hstart. }
  destruct (read_loop (on_read sys) len 0 s2) as [[ok s3] |] eqn:Hloop;
    [| discriminate].
  apply read_loop_in_bounds in Hloop; [| rewrite Hstat, Hstart; lia].
  rewrite Hstat, Hstart in Hloop.
  destruct ok; [destruct (gotdata _ _ =? 0) |];
    intros [= _ <-]; simpl; now rewrite sys_close_keeps_buf.
Qed.

Lemma getentropy_writes_within_len_witness :
  (5 <= length (buf Devices.caller))%nat
  /\ skipn 5 [x9c; x02; x00; x00; x51; xff; xff; xff]
     = skipn 5 (buf Devices.caller).
Proof.
  assert (Hlen : (5 <= length (buf Devices.caller))%nat) by (simpl; lia).
  split; [exact Hlen |].
  exact (proj2 (getentropy_writes_within_len Devices.busy 5 Devices.caller 0
                  (mkState 77 [x9c; x02; x00; x00; x51; xff; xff; xff])
                  Hlen eq_refl)).
Defined.

(** After answers that are passed over and offer fewer bytes than are
    still wanted, the bytes offered lie in the buffer from [i] on, in the
    order they came. *)
Lemma read_loop_fill pre rest len i s :
  forallb passed_over pre = true ->
  (i + total_bytes pre < len)%nat ->
  (len <= length (buf s))%nat ->
  exists e',
    read_loop (pre ++ rest) len i s
    = read_loop rest len (i + total_bytes pre)
        (mkState e' (firstn i (buf s) ++ flat_map offered pre
                     ++ skipn (i + total_bytes pre) (buf s))).
Proof.
  revert i s. induction pre as [| a pre IH]; intros i s Hq Hlt Hlen.
  - exists (errno s). unfold total_bytes. simpl.
    rewrite Nat.add_0_r, firstn_skipn. now destruct s.
  - simpl in Hq. apply andb_true_iff in Hq. destruct Hq as [Ha Hq].
    assert (Htot : total_bytes (a :: pre)
                   = (length (offered a) + total_bytes pre)%nat).
    { unfold total_bytes. simpl. now rewrite length_app. }
    rewrite Htot in *.
    change ((a :: pre) ++ rest) with (a :: pre ++ rest).
    cbn [read_loop].
    assert (Hi : (i <? len)%nat = true) by (apply Nat.ltb_lt; lia).
    rewrite Hi.
    destruct a as [data | e]; simpl in *.
    + rewrite firstn_all2 by lia.
      destruct (Z.eqb_spec (Z.of_nat (length data)) (-1)) as [Hm | _]; [lia |].
      rewrite Nat2Z.id.
      destruct (IH (i + length data)%nat
                   (mkState (errno s) (store (buf s) i data)) Hq) as [e' He'].
      * lia.
      * simpl. rewrite store_length; lia.
      * exists e'. rewrite He'. simpl buf.
        rewrite firstn_store by lia.
        rewrite skipn_store by lia.
        replace (i + length data + total_bytes pre)%nat
          with (i + (length data + total_bytes pre))%nat by lia.
        now rewrite <- !app_assoc.
    + rewrite Ha.
      destruct (IH i (set_errno e s) Hq) as [e' He']; [lia | exact Hlen |].
      exists e'. exact He'.
Qed.

(** With the device ready the routine is at its read loop, the buffer
    untouched. *)
Lemma getentropy_enters_read_loop sys len s :
  device_ready sys ->
  exists s2,
    buf s2 = buf s
    /\ getentropy sys len s
       = match read_loop (on_read sys) len 0 s2 with
         | None => None
         | Some (false, s3) => Some (nodevrandom (sys_close (on_close sys) s3))
         | Some (true, s3) =>
             let s4 := sys_close (on_close sys) s3 in
             if gotdata (buf s4) len =? 0
             then Some (0, set_errno (errno s) s4)
             else Some (nodevrandom s4)
         end.
Proof.
  intros [(k & fd & Hopen & Hfd) (m & Hm & Hchr)].
  destruct (start_opened sys k fd s Hopen Hfd) as (s1 & Hs & Hb).
  exists s1. split; [exact Hb |].
  unfold getentropy. rewrite Hs.
  destruct (Z.eqb_spec fd (-1)) as [| _]; [contradiction |].
  rewrite Hm. simpl. rewrite Hchr. reflexivity.
Qed.

(** X3.  The buffer is filled in order.  With the device ready, when the
    reads deliver the bytes in pieces, with interruptions in between, and
    the last piece brings at least what is still wanted, the routine
    returns and the first [len] bytes of the buffer are the first [len]
    bytes delivered, in order, the rest of the buffer as it was: with
    success and [errno] as on entry when one of them is not zero, with
    failure and [EIO] when all are. *)
Theorem getentropy_fills_in_order :
  forall sys len s pre data rest,
    device_ready sys ->
    on_read sys = pre ++ read_bytes data :: rest ->
    forallb passed_over pre = true ->
    (total_bytes pre < len <= total_bytes pre + length data)%nat ->
    (len <= length (buf s))%nat ->
    let bytes := firstn len (flat_map offered pre ++ data) in
    getentropy sys len s
    = if gotdata bytes len =? 0
      then Some (0, mkState (errno s) (bytes ++ skipn len (buf s)))
      else Some (-1, mkState EIO (bytes ++ skipn len (buf s))).
Proof.
  intros sys len s pre data rest Hready Hreads Hpre [Hlt Hle] Hlen bytes.
  destruct (getentropy_enters_read_loop sys len s Hready) as (s1 & Hb1 & ->).
  rewrite Hreads.
  destruct (read_loop_fill pre (read_bytes data :: rest) len 0 s1 Hpre)
    as [e' ->]; [lia | now rewrite Hb1 |].
  rewrite Hb1. simpl firstn. simpl app. simpl Nat.add.
  set (t := total_bytes pre) in *.
  assert (Ht : length (flat_map offered pre) = t) by reflexivity.
  cbn [read_loop sys_read].
  assert (Hlt' : (t <? len)%nat = true) by (apply Nat.ltb_lt; lia).
  rewrite Hlt', length_firstn, Nat.min_l by lia.
  destruct (Z.eqb_spec (Z.of_nat (len - t)) (-1)) as [| _]; [lia |].
  rewrite Nat2Z.id.
  replace (t + (len - t))%nat with len by lia.
  assert (Hend : forall st, read_loop rest len len st = Some (true, st)).
  { intros st. destruct rest; simpl; rewrite Nat.ltb_irrefl; reflexivity. }
  rewrite Hend. cbv zeta. rewrite sys_close_keeps_buf. simpl buf.
  assert (Hbuf : store (flat_map offered pre ++ skipn t (buf s)) t
                       (firstn (len - t) data)
                 = bytes ++ skipn len (buf s)).
  { set (F := flat_map offered pre) in *.
    set (G := firstn (len - t) data).
    assert (HG : length G = (len - t)%nat).
    { unfold G. rewrite length_firstn. lia. }
    assert (H1 : firstn t (F ++ skipn t (buf s)) = F).
    { rewrite firstn_app, Ht, Nat.sub_diag, firstn_O, app_nil_r.
      apply firstn_all2. lia. }
    assert (H2 : skipn len (F ++ skipn t (buf s)) = skipn len (buf s)).
    { rewrite skipn_app, Ht, skipn_skipn.
      rewrite (skipn_all2 F) by lia. simpl app. f_equal. lia. }
    assert (H3 : bytes = F ++ G).
    { unfold bytes. rewrite firstn_app, Ht.
      rewrite (firstn_all2 F) by lia. reflexivity. }
    unfold store. rewrite H1, HG, H3.
    replace (t + (len - t))%nat with len by lia.
    rewrite H2. now rewrite <- app_assoc. }
  rewrite Hbuf.
  assert (Hg : gotdata (bytes ++ skipn len (buf s)) len = gotdata bytes len).
  { unfold gotdata. f_equal.
    assert (Hbl : length bytes = len).
    { unfold bytes. rewrite length_firstn, length_app, Ht. lia. }
    rewrite firstn_app, Hbl, Nat.sub_diag, firstn_O, app_nil_r.
    reflexivity. }
  rewrite Hg. unfold nodevrandom, set_errno.
  rewrite sys_close_keeps_buf. simpl buf.
  destruct (gotdata bytes len =? 0); reflexivity.
Qed.

Lemma getentropy_fills_in_order_witness :
  (device_ready Devices.busy
   /\ (total_bytes [read_error EINTR; read_bytes [x9c; x02]; read_error EAGAIN]
       < 5 <= 2 + 3)%nat)
  /\ getentropy Devices.busy 5 Devices.caller
     = Some (0, mkState 77 [x9c; x02; x00; x00; x51; xff; xff; xff]).
Proof.
  assert (Hready : device_ready Devices.busy).
  { split.
    - exists 1%nat, 3. split; [now exists [] | discriminate].
    - exists S_IFCHR. now split. }
  assert (Hb : (total_bytes [read_error EINTR; read_bytes [x9c; x02];
                             read_error EAGAIN] < 5 <= 2 + 3)%nat)
    by (unfold total_bytes; simpl; lia).
  assert (Hlen : (5 <= length (buf Devices.caller))%nat) by (simpl; lia).
  split; [split; assumption |].
  exact (getentropy_fills_in_order Devices.busy 5 Devices.caller
           [read_error EINTR; read_bytes [x9c; x02]; read_error EAGAIN]
           [x00; x00; x51] [] Hready eq_refl eq_refl Hb Hlen).
Defined.

(** X4.  Nothing asked for.  Asked for zero bytes, [getentropy] never
    returns success: when it returns it returns [-1] with [EIO] and leaves
    the buffer as it was, and with the device ready it does return, without
    a single [read]. *)
Theorem getentropy_zero_length_fails :
  forall sys s,
    (forall r s', getentropy sys 0 s = Some (r, s') ->
                  r = -1 /\ s' = mkState EIO (buf s))
    /\ (device_ready sys ->
        getentropy sys 0 s = Some (-1, mkState EIO (buf s))).
Proof.
  intros sys s.
  assert (Hall : forall r s', getentropy sys 0 s = Some (r, s') ->
                   r = -1 /\ s' = mkState EIO (buf s)).
  { intros r s'. unfold getentropy.
    destruct (start (on_open sys) s) as [[fd s1] |] eqn:Hstart; [| discriminate].
    apply start_keeps_buf in Hstart.
    destruct (fd =? -1).
    { intros [= <- <-]. unfold set_errno. now rewrite Hstart. }
    pose proof (sys_fstat_keeps_buf (on_fstat sys) s1) as Hstat.
    destruct (sys_fstat (on_fstat sys) s1) as [[r0 m] s2]. simpl in Hstat.
    destruct ((r0 =? -1) || negb (S_ISCHR m)).
    { intros [= <- <-]. unfold set_errno.
      now rewrite sys_close_keeps_buf, Hstat, Hstart. }
    rewrite read_loop_nothing_wanted. cbv zeta.
    change (gotdata (buf (sys_close (on_close sys) s2)) 0) with (-1).
    simpl. intros [= <- <-]. unfold set_errno.
    now rewrite sys_close_keeps_buf, Hstat, Hstart. }
  split; [exact Hall |].
  intros Hready.
  destruct (getentropy_enters_read_loop sys 0 s Hready) as (s2 & _ & Hget).
  rewrite read_loop_nothing_wanted in Hget. cbv zeta in Hget.
  change (gotdata (buf (sys_close (on_close sys) s2)) 0) with (-1) in Hget.
  simpl in Hget.
  destruct (getentropy sys 0 s) as [[r s'] |] eqn:Hg; [| discriminate Hget].
  destruct (Hall r s' eq_refl) as [-> ->]. reflexivity.
Qed.

Lemma getentropy_zero_length_fails_witness :
  device_ready Devices.interrupted_once
  /\ getentropy Devices.interrupted_once 0 Devices.caller
     = Some (-1, mkState EIO (buf Devices.caller)).
Proof.
  split; [exact interrupted_once_ready |].
  exact (proj2 (getentropy_zero_length_fails Devices.interrupted_once
                  Devices.caller) interrupted_once_ready).
Defined.

(** X5.  No way out on end of file.  With the device ready, if every [read]
    answered so far delivered some bytes, or none (end of file), or failed
    with [EAGAIN] or [EINTR], and fewer than [len] bytes have come in all,
    the routine has not returned: it is still reading.  A device at end of
    file keeps it in the loop for ever. *)
Theorem getentropy_still_reading :
  forall sys len s,
    device_ready sys ->
    forallb passed_over (on_read sys) = true ->
    (total_bytes (on_read sys) < len)%nat ->
    getentropy sys len s = None.
Proof.
  intros sys len s Hready Hq Hlt.
  destruct (getentropy_at_read_loop sys len s Hready) as [s2 ->].
  destruct (read_loop_passes (on_read sys) [] len 0 s2 Hq) as [s3 Hs3];
    [lia |].
  rewrite app_nil_r in Hs3. rewrite Hs3. simpl.
  assert (H : (total_bytes (on_read sys) <? len)%nat = true)
    by now apply Nat.ltb_lt.
  now rewrite H.
Qed.

Lemma getentropy_still_reading_witness :
  getentropy
    (mkSystem [open_fd 3] (fstat_mode S_IFCHR)
              [read_bytes [x9c]; read_bytes []; read_bytes []; read_bytes []]
              close_ok)
    4 Devices.caller = None.
Proof.
  apply getentropy_still_reading.
  - split.
    + exists 0%nat, 3. split; [now exists [] | discriminate].
    + exists S_IFCHR. now split.
  - reflexivity.
  - unfold total_bytes. simpl. lia.
Defined.

(** X6.  [close] cannot change the outcome.  Whether [close] succeeds or fails,
    and with which error, the routine returns the same value, leaves the same
    [errno] and the same buffer. *)
Theorem getentropy_ignores_close :
  forall opens stat reads c c' len s,
    getentropy (mkSystem opens stat reads c) len s
    = getentropy (mkSystem opens stat reads c') len s.
Proof.
  intros opens stat reads c c' len s.
  assert (Hset : forall e a st, set_errno e (sys_close a st) = set_errno e st).
  { intros e a st. now destruct a. }
  unfold getentropy. simpl on_open. simpl on_fstat. simpl on_read.
  simpl on_close.
  destruct (start opens s) as [[fd s1] |]; [| reflexivity].
  destruct (fd =? -1); [reflexivity |].
  destruct (sys_fstat stat s1) as [[r0 m] s2].
  destruct ((r0 =? -1) || negb (S_ISCHR m)).
  { unfold nodevrandom. now rewrite !Hset. }
  destruct (read_loop reads len 0 s2) as [[[|] s3] |]; [| | reflexivity].
  - cbv zeta. rewrite !sys_close_keeps_buf. unfold nodevrandom.
    rewrite !Hset. reflexivity.
  - unfold nodevrandom. now rewrite !Hset.
Qed.

(** ** String comparison *)

Import OStr.

(** The loop is left at the first index at which its condition fails,
    provided one lies within reach of the rounds allowed. *)
Lemma for_loop_spec cond fuel i :
  (exists j, (i <= j < i + fuel)%nat /\ cond j = false) ->
  let r := for_loop cond fuel i in
  (i <= r)%nat /\ cond r = false
  /\ forall j, (i <= j < r)%nat -> cond j = true.
Proof.
  revert i. induction fuel as [| fuel IH]; intros i (j & Hj & Hc); [lia |].
  simpl. destruct (cond i) eqn:Hi.
  - destruct (IH (S i)) as (Hle & Hr & Hbelow).
    + exists j. split; [| assumption].
      assert (j <> i) by congruence. lia.
    + repeat split; [lia | assumption |].
      intros j' Hj'. destruct (Nat.eq_dec j' i) as [-> | Hne]; [assumption |].
      apply Hbelow. lia.
  - repeat split; [lia | assumption |]. intros j' Hj'. lia.
Qed.

Lemma first_failure_unique (cond : nat -> bool) r r' :
  cond r = false -> (forall j, (j < r)%nat -> cond j = true) ->
  cond r' = false -> (forall j, (j < r')%nat -> cond j = true) ->
  r = r'.
Proof.
  intros Hr Hb Hr' Hb'.
  destruct (Nat.lt_trichotomy r r') as [Hlt | [Heq | Hgt]]; [| assumption |].
  - rewrite (Hb' r Hlt) in Hr. discriminate.
  - rewrite (Hb r' Hgt) in Hr'. discriminate.
Qed.

Lemma for_loop_ext cond cond' fuel i :
  (forall j, cond j = cond' j) ->
  for_loop cond fuel i = for_loop cond' fuel i.
Proof.
  intros Hext. revert i. induction fuel as [| fuel IH]; intros i; simpl.
  - reflexivity.
  - rewrite Hext, IH. reflexivity.
Qed.

Lemma char_at_end str j : (length str <= j)%nat -> char_at str j = x00.
Proof. intros H. unfold char_at. now apply nth_overflow. Qed.

Lemma char_at_inside str j :
  c_string str -> (j < length str)%nat -> char_at str j <> x00.
Proof.
  intros Hc Hj Heq. apply Hc. rewrite <- Heq. unfold char_at.
  now apply nth_In.
Qed.

Lemma byte_eqb_refl c : Byte.eqb c c = true.
Proof. now apply Byte.byte_dec_lb. Qed.

Lemma byte_eqb_sym c c' : Byte.eqb c c' = Byte.eqb c' c.
Proof.
  destruct (Byte.eqb c c') eqn:H.
  - apply Byte.byte_dec_bl in H. subst. symmetry. apply byte_eqb_refl.
  - destruct (Byte.eqb c' c) eqn:H'; [| reflexivity].
    apply Byte.byte_dec_bl in H'. subst. now rewrite byte_eqb_refl in H.
Qed.

Lemma strcasecmp_cond_true str1 str2 j :
  strcasecmp_cond str1 str2 j = true <->
  char_at str1 j = char_at str2 j
  /\ char_at str1 j <> x00 /\ char_at str2 j <> x00.
Proof.
  unfold strcasecmp_cond. rewrite !andb_true_iff, !negb_true_iff. split.
  - intros [[He H1] H2]. apply Byte.byte_dec_bl in He.
    repeat split; [assumption | |]; now apply Byte.eqb_false.
  - intros (He & H1 & H2). repeat split.
    + now apply Byte.byte_dec_lb.
    + destruct (Byte.eqb (char_at str1 j) x00) eqn:E; [| reflexivity].
      now apply Byte.byte_dec_bl in E.
    + destruct (Byte.eqb (char_at str2 j) x00) eqn:E; [| reflexivity].
      now apply Byte.byte_dec_bl in E.
Qed.

Lemma strncasecmp_cond_split str1 str2 n j :
  strncasecmp_cond str1 str2 n j
  = strcasecmp_cond str1 str2 j && (j <? n)%nat.
Proof. reflexivity. Qed.

(** Where the loops stop. *)
Lemma strncasecmp_stop_spec str1 str2 n :
  let r := strncasecmp_stop str1 str2 n in
  strncasecmp_cond str1 str2 n r = false
  /\ (forall j, (j < r)%nat -> strncasecmp_cond str1 str2 n j = true).
Proof.
  destruct (for_loop_spec (strncasecmp_cond str1 str2 n) (S (length str1)) 0)
    as (_ & Hr & Hb).
  - exists (length str1). split; [lia |].
    rewrite strncasecmp_cond_split. unfold strcasecmp_cond.
    rewrite (char_at_end str1) by lia.
    now rewrite byte_eqb_refl, !andb_false_r.
  - split; [exact Hr |]. intros j Hj. apply Hb. split; [lia | exact Hj].
Qed.

Lemma strcasecmp_stop_spec str1 str2 :
  let r := strcasecmp_stop str1 str2 in
  strcasecmp_cond str1 str2 r = false
  /\ (forall j, (j < r)%nat -> strcasecmp_cond str1 str2 j = true).
Proof.
  destruct (for_loop_spec (strcasecmp_cond str1 str2) (S (length str1)) 0)
    as (_ & Hr & Hb).
  - exists (length str1). split; [lia |].
    unfold strcasecmp_cond. rewrite (char_at_end str1) by lia.
    now rewrite byte_eqb_refl, !andb_false_r.
  - split; [exact Hr |]. intros j Hj. apply Hb. split; [lia | exact Hj].
Qed.

Lemma stop_within str1 str2 (cond : nat -> bool) r :
  (forall j, (j < r)%nat -> cond j = true) ->
  (forall j, cond j = true -> strcasecmp_cond str1 str2 j = true) ->
  (r <= length str1)%nat /\ (r <= length str2)%nat.
Proof.
  intros Hb Hc. split.
  - destruct (Nat.le_gt_cases r (length str1)) as [H | H]; [assumption |].
    apply Hb, Hc, strcasecmp_cond_true in H. destruct H as (_ & H1 & _).
    exfalso. apply H1. now apply char_at_end.
  - destruct (Nat.le_gt_cases r (length str2)) as [H | H]; [assumption |].
    apply Hb, Hc, strcasecmp_cond_true in H. destruct H as (_ & _ & H2).
    exfalso. apply H2. now apply char_at_end.
Qed.

(** Where the loops stop, and why. *)
Lemma stop_facts :
  forall str1 str2 n,
    let r := strncasecmp_stop str1 str2 n in
    let r' := strcasecmp_stop str1 str2 in
    ((r <= length str1)%nat /\ (r <= length str2)%nat /\ (r <= n)%nat
     /\ strncasecmp_cond str1 str2 n r = false
     /\ forall j, (j < r)%nat -> char_at str1 j = char_at str2 j)
    /\ ((r' <= length str1)%nat /\ (r' <= length str2)%nat
        /\ strcasecmp_cond str1 str2 r' = false
        /\ forall j, (j < r')%nat -> char_at str1 j = char_at str2 j).
Proof.
  intros str1 str2 n r r'.
  destruct (strncasecmp_stop_spec str1 str2 n) as [Hr Hb].
  destruct (strcasecmp_stop_spec str1 str2) as [Hr' Hb'].
  fold r in Hr, Hb. fold r' in Hr', Hb'.
  assert (Hn : forall j, strncasecmp_cond str1 str2 n j = true ->
                 strcasecmp_cond str1 str2 j = true).
  { intros j. rewrite strncasecmp_cond_split, andb_true_iff. tauto. }
  split.
  - destruct (stop_within str1 str2 _ r Hb Hn) as [H1 H2].
    repeat split; try assumption.
    + destruct (Nat.le_gt_cases r n) as [H | H]; [assumption |].
      apply Hb in H. rewrite strncasecmp_cond_split, andb_true_iff in H.
      destruct H as [_ H]. apply Nat.ltb_lt in H. lia.
    + intros j Hj. apply Hb, Hn, strcasecmp_cond_true in Hj. tauto.
  - destruct (stop_within str1 str2 _ r' Hb' (fun j H => H)) as [H1 H2].
    repeat split; try assumption.
    intros j Hj. apply Hb', strcasecmp_cond_true in Hj. tauto.
Qed.

(** X8.  The loops stay inside the strings.  Each loop is left because its
    condition fails, at an index at or before the terminator of either
    string, and for the [n] variants at [n] at the latest; the characters
    compared for the result are read there.  Up to that index the strings
    agree and have not ended. *)
Theorem comparison_stops_within_strings :
  forall str1 str2 n,
    let r := strncasecmp_stop str1 str2 n in
    let r' := strcasecmp_stop str1 str2 in
    ((r <= length str1)%nat /\ (r <= length str2)%nat /\ (r <= n)%nat
     /\ strncasecmp_cond str1 str2 n r = false
     /\ forall j, (j < r)%nat -> char_at str1 j = char_at str2 j)
    /\ ((r' <= length str1)%nat /\ (r' <= length str2)%nat
        /\ strcasecmp_cond str1 str2 r' = false
        /\ forall j, (j < r')%nat -> char_at str1 j = char_at str2 j).
Proof. exact stop_facts. Qed.

Lemma comparison_stops_within_strings_witness :
  (strncasecmp_stop [x61; x62; x63; x58] [x61; x62; x63; x59] 3 <= 3)%nat
  /\ (strcasecmp_stop [x61; x62] [x61; x62; x63] <= length [x61; x62])%nat.
Proof.
  destruct (comparison_stops_within_strings
              [x61; x62; x63; x58] [x61; x62; x63; x59] 3)
    as [(_ & _ & Hn & _) _].
  destruct (comparison_stops_within_strings [x61; x62] [x61; x62; x63] 0)
    as [_ (Hl & _)].
  split; [exact Hn | exact Hl].
Defined.

(** A character is told by its value, signed or not. *)
Lemma char_to_int_inj sg c c' :
  char_to_int sg c = char_to_int sg c' -> c = c'.
Proof.
  assert (Hrange : forall b, 0 <= Z.of_N (Byte.to_N b) < 256).
  { intros b. pose proof (Byte.to_N_bounded b). lia. }
  assert (Hsign : forall u, 0 <= u < 256 ->
            sign 8 u = if Z_lt_le_dec u 128 then u else u - 256).
  { intros u Hu. unfold sign. rewrite Z.shiftl_1_l.
    destruct (Z_lt_le_dec u 128).
    - now rewrite top_bit_clear by lia.
    - rewrite top_bit_set; [reflexivity | lia | simpl; lia]. }
  intros H.
  assert (Hu : Z.of_N (Byte.to_N c) = Z.of_N (Byte.to_N c')).
  { unfold char_to_int in H. cbv zeta in H.
    pose proof (Hrange c). pose proof (Hrange c').
    destruct sg; [| exact H].
    rewrite !Hsign in H by assumption.
    destruct (Z_lt_le_dec _ 128), (Z_lt_le_dec _ 128); lia. }
  apply N2Z.inj in Hu.
  pose proof (Byte.of_to_N c) as Hc. rewrite Hu, Byte.of_to_N in Hc.
  now injection Hc.
Qed.

Lemma difference_zero sg c c' :
  char_to_int sg c - char_to_int sg c' = 0 <-> c = c'.
Proof.
  split.
  - intros H. apply (char_to_int_inj sg). lia.
  - intros ->. lia.
Qed.

(** Two C strings agree at every index below [m] exactly when their first
    [m] characters are the same. *)
Lemma agree_below_firstn m : forall str1 str2,
  c_string str1 -> c_string str2 ->
  (forall j, (j < m)%nat -> char_at str1 j = char_at str2 j)
  <-> firstn m str1 = firstn m str2.
Proof.
  induction m as [| m IH]; intros str1 str2 H1 H2.
  - split; [reflexivity | intros _ j Hj; lia].
  - destruct str1 as [| c1 r1], str2 as [| c2 r2].
    + split; [reflexivity | intros _ j _; now destruct j].
    + split; [| discriminate]. intros H. exfalso. apply H2.
      specialize (H 0%nat ltac:(lia)). unfold char_at in H. simpl in H.
      rewrite H. now left.
    + split; [| discriminate]. intros H. exfalso. apply H1.
      specialize (H 0%nat ltac:(lia)). unfold char_at in H. simpl in H.
      rewrite <- H. now left.
    + assert (H1' : c_string r1) by (intros Hin; apply H1; now right).
      assert (H2' : c_string r2) by (intros Hin; apply H2; now right).
      simpl firstn. split.
      * intros H. f_equal.
        -- apply (H 0%nat). lia.
        -- apply (IH r1 r2 H1' H2'). intros j Hj. apply (H (S j)). lia.
      * intros [= -> Hr] j Hj. destruct j as [| j]; [reflexivity |].
        apply (IH r1 r2 H1' H2'); [exact Hr | lia].
Qed.

Lemma strncasecmp_functions sg f :
  In f [OPENSSL_strncasecmp sg; strncasecmp sg] ->
  forall str1 str2 n,
    f str1 str2 n
    = char_to_int sg (char_at str1 (strncasecmp_stop str1 str2 n))
      - char_to_int sg (char_at str2 (strncasecmp_stop str1 str2 n)).
Proof. simpl. intros [<- | [<- | []]]; reflexivity. Qed.

Lemma strcasecmp_functions sg f :
  In f [OPENSSL_strcasecmp sg; strcasecmp sg] ->
  forall str1 str2,
    f str1 str2
    = char_to_int sg (char_at str1 (strcasecmp_stop str1 str2))
      - char_to_int sg (char_at str2 (strcasecmp_stop str1 str2)).
Proof. simpl. intros [<- | [<- | []]]; reflexivity. Qed.

Lemma ended_at str r :
  c_string str -> char_at str r = x00 -> (length str <= r)%nat.
Proof.
  intros Hc H. destruct (Nat.le_gt_cases (length str) r) as [Hle | Hgt];
    [assumption |].
  exfalso. exact (char_at_inside str r Hc Hgt H).
Qed.

(** X9.  What [strncasecmp] compares.  For C strings, [OPENSSL_strncasecmp]
    and the [strncasecmp] of [string.h] return [0] exactly when the first
    [n + 1] characters of the two strings are the same, byte for byte: one
    character more than [n] is compared, and letters of different case are
    different. *)
Theorem strncasecmp_zero_iff :
  forall sg f str1 str2 n,
    In f [OPENSSL_strncasecmp sg; strncasecmp sg] ->
    c_string str1 -> c_string str2 ->
    (f str1 str2 n = 0 <-> firstn (S n) str1 = firstn (S n) str2).
Proof.
  intros sg f str1 str2 n Hf H1 H2.
  rewrite (strncasecmp_functions sg f Hf), difference_zero.
  rewrite <- (agree_below_firstn (S n) str1 str2 H1 H2).
  destruct (stop_facts str1 str2 n) as [(Hl1 & Hl2 & Hn & Hstop & Hagree) _].
  cbv zeta in *. set (r := strncasecmp_stop str1 str2 n) in *.
  split.
  - intros Heq j Hj.
    destruct (Nat.lt_trichotomy j r) as [Hlt | [-> | Hgt]];
      [now apply Hagree | exact Heq |].
    rewrite strncasecmp_cond_split in Hstop.
    assert (Hlast : (r <? n)%nat = true) by (apply Nat.ltb_lt; lia).
    rewrite Hlast, andb_true_r in Hstop.
    assert (Hnul : char_at str1 r = x00).
    { destruct (Byte.byte_eq_dec (char_at str1 r) x00) as [| Hne];
        [assumption | exfalso].
      assert (Ht : strcasecmp_cond str1 str2 r = true).
      { apply strcasecmp_cond_true. repeat split; congruence. }
      congruence. }
    rewrite !char_at_end; [reflexivity | |].
    + assert (char_at str2 r = x00) by congruence.
      pose proof (ended_at str2 r H2 H). lia.
    + pose proof (ended_at str1 r H1 Hnul). lia.
  - intros Hall. apply Hall. lia.
Qed.

Lemma strncasecmp_zero_iff_witness :
  (c_string [x61; x62; x63; x58] /\ c_string [x61; x62; x63; x59])
  /\ (OPENSSL_strncasecmp true [x61; x62; x63; x58] [x61; x62; x63; x59] 3 = 0
      <-> firstn 4 [x61; x62; x63; x58] = firstn 4 [x61; x62; x63; x59]).
Proof.
  assert (H1 : c_string [x61; x62; x63; x58]).
  { unfold c_string. simpl. intros [H | [H | [H | [H | []]]]]; discriminate H. }
  assert (H2 : c_string [x61; x62; x63; x59]).
  { unfold c_string. simpl. intros [H | [H | [H | [H | []]]]]; discriminate H. }
  split; [split; assumption |].
  apply (strncasecmp_zero_iff true (OPENSSL_strncasecmp true)
           [x61; x62; x63; x58] [x61; x62; x63; x59] 3).
  - simpl. tauto.
  - exact H1.
  - exact H2.
Defined.

(** Once [n] reaches the end of one of the strings, the test on [n] plays
    no part. *)
Lemma strncasecmp_stop_long str1 str2 n :
  (length str1 <= n)%nat \/ (length str2 <= n)%nat ->
  strncasecmp_stop str1 str2 n = strcasecmp_stop str1 str2.
Proof.
  intros Hn. unfold strncasecmp_stop, strcasecmp_stop.
  apply for_loop_ext. intros j. rewrite strncasecmp_cond_split.
  destruct (Nat.ltb_spec j n) as [Hlt | Hge]; [apply andb_true_r |].
  rewrite andb_false_r. symmetry. unfold strcasecmp_cond.
  destruct Hn as [Hn | Hn].
  - rewrite (char_at_end str1 j) by lia.
    now rewrite byte_eqb_refl, andb_false_r.
  - rewrite (char_at_end str2 j) by lia.
    now rewrite byte_eqb_refl, andb_false_r.
Qed.

(** X10.  [strncasecmp] with a long [n].  When [n] is at least the length
    of one of the two strings, the [n] variant returns what the variant
    without [n] returns. *)
Theorem strncasecmp_long_n :
  forall sg str1 str2 n,
    (length str1 <= n)%nat \/ (length str2 <= n)%nat ->
    OPENSSL_strncasecmp sg str1 str2 n = OPENSSL_strcasecmp sg str1 str2
    /\ strncasecmp sg str1 str2 n = strcasecmp sg str1 str2.
Proof.
  intros sg str1 str2 n Hn.
  unfold OPENSSL_strncasecmp, OPENSSL_strcasecmp, strncasecmp, strcasecmp.
  cbv zeta. rewrite (strncasecmp_stop_long str1 str2 n Hn). now split.
Qed.

Lemma strncasecmp_long_n_witness :
  ((length [x61; x62] <= 2)%nat \/ (length [x61; x62; x63] <= 2)%nat)
  /\ OPENSSL_strncasecmp false [x61; x62] [x61; x62; x63] 2
     = OPENSSL_strcasecmp false [x61; x62] [x61; x62; x63].
Proof.
  assert (H : (length [x61; x62] <= 2)%nat \/ (length [x61; x62; x63] <= 2)%nat)
    by (left; simpl; lia).
  split; [exact H |].
  exact (proj1 (strncasecmp_long_n false [x61; x62] [x61; x62; x63] 2 H)).
Defined.

(** X11.  What [strcasecmp] compares.  For C strings, [OPENSSL_strcasecmp] and
    the [strcasecmp] of [string.h] return [0] exactly when the two strings
    are the same, byte for byte: strings that differ in the case of a letter
    only are told apart. *)
Theorem strcasecmp_zero_iff :
  forall sg f str1 str2,
    In f [OPENSSL_strcasecmp sg; strcasecmp sg] ->
    c_string str1 -> c_string str2 ->
    (f str1 str2 = 0 <-> str1 = str2).
Proof.
  intros sg f str1 str2 Hf H1 H2.
  rewrite (strcasecmp_functions sg f Hf), difference_zero.
  set (n := length str1).
  rewrite <- (strncasecmp_stop_long str1 str2 n) by (left; unfold n; lia).
  destruct (stop_facts str1 str2 n) as [(Hl1 & Hl2 & Hn & Hstop & Hagree) _].
  cbv zeta in *. set (r := strncasecmp_stop str1 str2 n) in *.
  split.
  - intros Heq.
    assert (Hnul : char_at str1 r = x00).
    { destruct (Byte.byte_eq_dec (char_at str1 r) x00) as [| Hne];
        [assumption | exfalso].
      assert (Hr : (r < n)%nat).
      { destruct (Nat.le_gt_cases n r) as [Hle | Hgt]; [| assumption].
        exfalso. apply Hne. apply char_at_end. unfold n in Hle. lia. }
      rewrite strncasecmp_cond_split in Hstop.
      assert (Hlast : (r <? n)%nat = true) by now apply Nat.ltb_lt.
      rewrite Hlast, andb_true_r in Hstop.
      assert (Ht : strcasecmp_cond str1 str2 r = true).
      { apply strcasecmp_cond_true. repeat split; congruence. }
      congruence. }
    assert (Hnul2 : char_at str2 r = x00) by congruence.
    pose proof (ended_at str1 r H1 Hnul) as He1.
    pose proof (ended_at str2 r H2 Hnul2) as He2.
    assert (Hf1 : firstn r str1 = firstn r str2)
      by (apply agree_below_firstn; assumption).
    rewrite !firstn_all2 in Hf1 by lia. exact Hf1.
  - intros ->. reflexivity.
Qed.

Lemma strcasecmp_zero_iff_witness :
  (c_string [x41] /\ c_string [x61])
  /\ (OPENSSL_strcasecmp true [x41] [x61] = 0 <-> [x41] = [x61]).
Proof.
  assert (H1 : c_string [x41]).
  { unfold c_string. simpl. intros [H | []]. discriminate H. }
  assert (H2 : c_string [x61]).
  { unfold c_string. simpl. intros [H | []]. discriminate H. }
  split; [split; assumption |].
  apply (strcasecmp_zero_iff true (OPENSSL_strcasecmp true) [x41] [x61]).
  - simpl. tauto.
  - exact H1.
  - exact H2.
Defined.

(** X12.  Swapping the arguments.  Each of the four functions returns, with
    its two strings exchanged, the opposite number. *)
Theorem comparison_antisymmetric :
  forall sg str1 str2 n,
    OPENSSL_strcasecmp sg str2 str1 = - OPENSSL_strcasecmp sg str1 str2
    /\ OPENSSL_strncasecmp sg str2 str1 n = - OPENSSL_strncasecmp sg str1 str2 n
    /\ strcasecmp sg str2 str1 = - strcasecmp sg str1 str2
    /\ strncasecmp sg str2 str1 n = - strncasecmp sg str1 str2 n.
Proof.
  intros sg str1 str2 n.
  assert (Hsym : forall j, strcasecmp_cond str2 str1 j = strcasecmp_cond str1 str2 j).
  { intros j. unfold strcasecmp_cond.
    rewrite (byte_eqb_sym (char_at str2 j)).
    now destruct (Byte.eqb (char_at str1 j) (char_at str2 j)),
      (Byte.eqb (char_at str1 j) x00), (Byte.eqb (char_at str2 j) x00). }
  assert (Hstop : strcasecmp_stop str2 str1 = strcasecmp_stop str1 str2).
  { destruct (strcasecmp_stop_spec str1 str2) as [Hr Hb].
    destruct (strcasecmp_stop_spec str2 str1) as [Hr' Hb'].
    cbv zeta in *.
    apply (first_failure_unique (strcasecmp_cond str1 str2));
      try assumption.
    - now rewrite <- Hsym.
    - intros j Hj. rewrite <- Hsym. now apply Hb'. }
  assert (Hstopn : strncasecmp_stop str2 str1 n = strncasecmp_stop str1 str2 n).
  { destruct (strncasecmp_stop_spec str1 str2 n) as [Hr Hb].
    destruct (strncasecmp_stop_spec str2 str1 n) as [Hr' Hb'].
    cbv zeta in *.
    assert (Hsymn : forall j, strncasecmp_cond str2 str1 n j
                              = strncasecmp_cond str1 str2 n j).
    { intros j. now rewrite !strncasecmp_cond_split, Hsym. }
    apply (first_failure_unique (strncasecmp_cond str1 str2 n));
      try assumption.
    - now rewrite <- Hsymn.
    - intros j Hj. rewrite <- Hsymn. now apply Hb'. }
  unfold OPENSSL_strcasecmp, OPENSSL_strncasecmp, strcasecmp, strncasecmp.
  cbv zeta. rewrite Hstop, Hstopn. repeat split; lia.
Qed.

(** ** More on the helpers *)

Lemma run_is_call_indirect (P : Plugin) run :
  In run [Helper.run_completion_callback; LibHelper.run_completion_callback] ->
  forall cb code (w : World),
    run cb code w = call_indirect (func cb) (user_data cb) code w.
Proof. simpl. intros [<- | [<- | []]]; reflexivity. Qed.



(** X14.  Running callbacks one after the other.  Two runs make two calls, in
    the order of the runs, the second on the state the first left; this
    holds as well when both runs are of the same callback: the helper keeps
    no record of a callback having run. *)
Theorem run_completion_callback_twice :
  forall (P : Plugin) run cb1 code1 cb2 code2 (w : World),
    In run [Helper.run_completion_callback;
            LibHelper.run_completion_callback] ->
    func cb1 <> NULL -> func cb2 <> NULL ->
    exists w1,
      run cb1 code1 w = Some (tt, w1)
      /\ run cb2 code2 w1
         = Some (tt, mkWorld
                       (invoked w ++ [mkInvocation (func cb1) (user_data cb1) code1;
                                      mkInvocation (func cb2) (user_data cb2) code2])
                       (body (func cb2) (user_data cb2) code2
                             (body (func cb1) (user_data cb1) code1 (heap w)))).
Proof.
  intros P run cb1 code1 cb2 code2 w Hrun H1 H2.
  rewrite (run_is_call_indirect P run Hrun).
  rewrite (call_indirect_spec P _ _ _ w H1).
  eexists. split; [reflexivity |].
  rewrite (run_is_call_indirect P run Hrun).
  rewrite call_indirect_spec by assumption. simpl.
  now rewrite <- app_assoc.
Qed.

Lemma run_completion_callback_twice_witness :
  4096 <> NULL
  /\ exists w1,
      @Helper.run_completion_callback recording_plugin
        (mkCallback 4096 17 0) 1 (@mkWorld recording_plugin [] [])
      = Some (tt, w1)
      /\ @Helper.run_completion_callback recording_plugin
           (mkCallback 4096 17 0) 2 w1
         = Some (tt, @mkWorld recording_plugin
                       [mkInvocation 4096 17 1; mkInvocation 4096 17 2]
                       [(17, 2); (17, 1)]).
Proof.
  assert (H : 4096 <> NULL) by (unfold NULL; lia).
  split; [exact H |].
  apply (run_completion_callback_twice recording_plugin
           (@Helper.run_completion_callback recording_plugin)
           (mkCallback 4096 17 0) 1 (mkCallback 4096 17 0) 2
           (@mkWorld recording_plugin [] [])).
  - simpl. tauto.
  - exact H.
  - exact H.
Defined.

(** X15.  One Variant, one identity.  Two reference encodings are the same
    Variant only if they are of the same Kind and of the same identity. *)
Theorem reference_encoding_injective :
  forall k enc k' enc' id id',
    In (k, enc) (Helper.reference_encoders ++ LibHelper.reference_encoders) ->
    In (k', enc') (Helper.reference_encoders ++ LibHelper.reference_encoders) ->
    int64_range id -> int64_range id' ->
    enc id = enc' id' ->
    k = k' /\ id = id'.
Proof.
  intros k enc k' enc' id id' Hin Hin' Hid Hid' Heq.
  rewrite (reference_encoder_builds k enc id Hin) in Heq.
  rewrite (reference_encoder_builds k' enc' id' Hin') in Heq.
  injection Heq as Hk Hv. split; [exact Hk |].
  rewrite <- (ArmFacts.as_id_set_as_id uninitialized id Hid).
  rewrite <- (ArmFacts.as_id_set_as_id uninitialized id' Hid').
  now rewrite Hv.
Qed.

Lemma reference_encoding_injective_witness :
  (int64_range (-1) /\ int64_range (-1))
  /\ (LibHelper.object_id_to_var (-1) = Helper.object_id_to_var (-1) ->
      PP_VARTYPE_OBJECT = PP_VARTYPE_OBJECT /\ -1 = -1).
Proof.
  assert (H : int64_range (-1)) by (unfold int64_range; lia).
  split; [split; exact H |].
  apply (reference_encoding_injective
           PP_VARTYPE_OBJECT LibHelper.object_id_to_var
           PP_VARTYPE_OBJECT Helper.object_id_to_var (-1) (-1)).
  - simpl. tauto.
  - simpl. tauto.
  - exact H.
  - exact H.
Defined.

(** ** More on [getentropy] *)

(** What [errno] holds when the read loop is entered has no bearing on how
    the loop ends nor on what it leaves in the buffer. *)
Lemma read_loop_errno_irrelevant answers len : forall i b e1 e2,
  option_map (fun r => (fst r, buf (snd r)))
             (read_loop answers len i (mkState e1 b))
  = option_map (fun r => (fst r, buf (snd r)))
               (read_loop answers len i (mkState e2 b)).
Proof.
  induction answers as [| a answers IH]; intros i b e1 e2; simpl.
  - destruct (i <? len)%nat; reflexivity.
  - destruct (i <? len)%nat; [| reflexivity].
    destruct a as [data | e]; simpl.
    + destruct (Z.eqb_spec (Z.of_nat (length (firstn (len - i) data))) (-1))
        as [Hm | _]; [lia | apply IH].
    + reflexivity.
Qed.

(** X7.  An interrupted [open] leaves no trace.  However many times [open]
    fails with [EINTR] before it answers, the routine returns what it
    returns when [open] answers at once: the same value, the same [errno],
    the same buffer. *)
Theorem getentropy_open_interruptions_invisible :
  forall k a rest stat reads c len s,
    a <> open_fd (-1) ->
    getentropy (mkSystem (repeat (open_error EINTR) k ++ a :: rest)
                         stat reads c) len s
    = getentropy (mkSystem (a :: rest) stat reads c) len s.
Proof.
  intros k a rest stat reads c len s Ha.
  destruct k as [| k]; [reflexivity |].
  unfold getentropy. cbn [on_open on_fstat on_read on_close].
  rewrite start_interrupted by lia.
  destruct a as [fd | e].
  - assert (Hfd : fd <> -1) by congruence.
    simpl start. destruct (Z.eqb_spec fd (-1)) as [| _]; [contradiction |].
    destruct (Z.eqb_spec fd (-1)) as [| _]; [contradiction |].
    destruct stat as [m | e]; simpl sys_fstat; cbv iota beta.
    + destruct ((0 =? -1) || negb (S_ISCHR m)).
      * destruct c; reflexivity.
      * destruct s as [e0 b]. unfold set_errno. simpl errno. simpl buf.
        pose proof (read_loop_errno_irrelevant reads len 0%nat b EINTR e0) as H.
        destruct (read_loop reads len 0 (mkState EINTR b)) as [[ok1 s1] |],
                 (read_loop reads len 0 (mkState e0 b)) as [[ok2 s2] |];
          simpl in H; try discriminate H; [| reflexivity].
        injection H as -> Hb.
        destruct ok2; cbv zeta; unfold nodevrandom, set_errno;
          rewrite !sys_close_keeps_buf, Hb; reflexivity.
    + destruct c; reflexivity.
  - simpl start. unfold set_errno. simpl. reflexivity.
Qed.

Lemma getentropy_open_interruptions_invisible_witness :
  open_fd 3 <> open_fd (-1)
  /\ getentropy Devices.busy 5 Devices.caller
     = getentropy
         (mkSystem [open_fd 3] (on_fstat Devices.busy) (on_read Devices.busy)
                   (on_close Devices.busy))
         5 Devices.caller.
Proof.
  assert (H : open_fd 3 <> open_fd (-1)) by discriminate.
  split; [exact H |].
  exact (getentropy_open_interruptions_invisible 1 (open_fd 3) []
           (on_fstat Devices.busy) (on_read Devices.busy)
           (on_close Devices.busy) 5 Devices.caller H).
Defined.
